(** * Sampling module for Wishart processes (regain.bayesian.sampling)

    A shallow embedding of [src/regain/bayesian/sampling.py]:
    [elliptical_slice], [sample_hyper_kernel], [logpunorm], [sample_L2],
    [_sample_ell_comp] and [logp_ell_posterior].

    - Floats are an abstract scalar interface ([Scalar]); nothing below
      relies on an algebraic law of floating-point arithmetic.  The module
      is instantiated twice at the end of the definitions: with exact
      rationals (to run the samplers on concrete inputs) and with the real
      numbers (for the one claim that is an identity of real arithmetic).
    - numpy arrays are a shape together with row-major data ([ndarray]);
      the element-wise operations implement numpy's broadcasting, with its
      [ValueError] when shapes do not match.
    - The global [np.random] stream is an explicit generator that is
      threaded through every call, together with the log of the draws that
      were made.
    - Objects mutated in place (the state bundle of [elliptical_slice], the
      array [Ltau] of [sample_L2]) live in the store of a state-and-exception
      monad; an exception keeps the store as it was when it was raised. *)

From Stdlib Require Import ZArith QArith Reals Lra Lia String.
From stdpp Require Import base option list strings.

Open Scope nat_scope.

(** ** Scalars *)

(** Python floats (numpy float64).  [f_lit] reads a decimal literal or an
    integer that Python promotes to float. *)
Class Scalar (R : Type) := {
  f_lit : Q -> R;
  f_pi : R;
  fadd : R -> R -> R;
  fsub : R -> R -> R;
  fmul : R -> R -> R;
  fdiv : R -> R -> R;
  fneg : R -> R;
  fcos : R -> R;
  fsin : R -> R;
  flog : R -> R;
  fexp : R -> R;
  fsqrt : R -> R;
  freal : R -> R;            (* np.real *)
  flt : R -> R -> bool;      (* x < y *)
  fle : R -> R -> bool;      (* x <= y *)
}.

Section Scalars.
Context {R : Type} `{Scalar R}.

Definition f_zero : R := f_lit 0.
Definition f_one : R := f_lit 1.
Definition f_two : R := f_lit 2.
Definition f_nat (n : nat) : R := f_lit (inject_Z (Z.of_nat n)).

(** [x > y] *)
Definition fgt (x y : R) : bool := flt y x.

(** Python's builtin [min(a, b)]: [b] when [b < a], otherwise [a]. *)
Definition py_min (a b : R) : R := if flt b a then b else a.

(** [x ** 2] *)
Definition fsquare (x : R) : R := fmul x x.

(** [stats.norm.pdf(x, m, s)], written as the source does next to its use:
    [np.exp(-0.5 * ((x - m)/s)**2) / (np.sqrt(2*np.pi) * s)]. *)
Definition norm_pdf (x m s : R) : R :=
  fdiv (fexp (fmul (f_lit (-1 # 2)) (fsquare (fdiv (fsub x m) s))))
       (fmul (fsqrt (fmul f_two f_pi)) s).
End Scalars.

(** ** Exceptions and outcomes *)

Inductive Exn : Type :=
| ValueError (msg : string)
| RuntimeError (msg : string)
| IndexError (msg : string).

Inductive Outcome (A : Type) : Type :=
| Returned (a : A)
| Raised (e : Exn).
Arguments Returned {A} _.
Arguments Raised {A} _.

Definition prior_shape_msg : string :=
  "Prior must be given by a D-element sample or DxD chol(Sigma)".
Definition shrunk_msg : string :=
  "BUG DETECTED: Shrunk to current position and still not acceptable.".
(** numpy's messages are kept up to the shapes and indices they quote. *)
Definition broadcast_msg : string :=
  "operands could not be broadcast together".
Definition unpack_few_msg (got : nat) : string :=
  "not enough values to unpack (expected 3, got "
  +:+ match got with 0 => "0" | 1 => "1" | _ => "2" end +:+ ")".
Definition unpack_many_msg : string :=
  "too many values to unpack (expected 3)".
Definition reshape_msg : string :=
  "cannot reshape array".
Definition index_msg : string :=
  "index is out of bounds".
Definition too_many_indices_msg : string :=
  "too many indices for array".
Definition tril_msg : string :=
  "input array must be 2-d".
Definition assign_msg : string :=
  "shape mismatch: value array could not be broadcast to indexing result".

(** ** numpy arrays *)

Record ndarray (R : Type) : Type := mk_ndarray {
  shape : list nat;
  data : list R;           (* row-major (C order) *)
}.
Arguments mk_ndarray {R} shape data.
Arguments shape {R} _.
Arguments data {R} _.

(** [a.size] of a shape *)
Definition shape_size (s : list nat) : nat := fold_right Nat.mul 1 s.

(** numpy's broadcasting rule on shapes, aligned at the last axis: two
    dimensions are compatible when they are equal or one of them is 1. *)
Fixpoint broadcast_rev (s1 s2 : list nat) : option (list nat) :=
  match s1, s2 with
  | [], s => Some s
  | s, [] => Some s
  | d1 :: r1, d2 :: r2 =>
      match broadcast_rev r1 r2 with
      | None => None
      | Some r =>
          if d1 =? d2 then Some (d1 :: r)
          else if d1 =? 1 then Some (d2 :: r)
          else if d2 =? 1 then Some (d1 :: r)
          else None
      end
  end.

Definition broadcast_shapes (s1 s2 : list nat) : option (list nat) :=
  match broadcast_rev (rev s1) (rev s2) with
  | None => None
  | Some r => Some (rev r)
  end.

(** All multi-indices of a shape, in row-major order. *)
Fixpoint indices (s : list nat) : list (list nat) :=
  match s with
  | [] => [[]]
  | d :: r => flat_map (fun i => map (cons i) (indices r)) (seq 0 d)
  end.

(** Flat offset, in an array of shape [s], of the element that broadcasting
    puts at multi-index [idx] of the result: leading result axes that the
    array lacks are dropped, and an axis of length 1 is read at 0. *)
Definition broadcast_offset (s idx : list nat) : nat :=
  fold_left (fun acc di => acc * fst di + (if fst di =? 1 then 0 else snd di))
            (combine s (drop (length idx - length s) idx)) 0.

Section Arrays.
Context {R : Type} `{Scalar R}.

Definition np_size (a : ndarray R) : nat := shape_size (shape a).

Definition np_get (a : ndarray R) (idx : list nat) : R :=
  nth (broadcast_offset (shape a) idx) (data a) f_zero.

(** [a * c] for a Python float [c] *)
Definition np_scale (a : ndarray R) (c : R) : ndarray R :=
  mk_ndarray (shape a) (map (fun x => fmul x c) (data a)).

(** element-wise binary operation with broadcasting *)
Definition np_binop (f : R -> R -> R) (a b : ndarray R)
  : Outcome (ndarray R) :=
  match broadcast_shapes (shape a) (shape b) with
  | None => Raised (ValueError broadcast_msg)
  | Some s =>
      Returned (mk_ndarray s (map (fun idx => f (np_get a idx) (np_get b idx))
                             (indices s)))
  end.

Definition np_add := np_binop fadd.
Definition np_mul := np_binop fmul.

(** [np.real(a)] *)
Definition np_real (a : ndarray R) : ndarray R :=
  mk_ndarray (shape a) (map freal (data a)).

(** [np.reshape(a, s)] *)
Definition np_reshape (a : ndarray R) (s : list nat) : Outcome (ndarray R) :=
  if np_size a =? shape_size s then Returned (mk_ndarray s (data a))
  else Raised (ValueError reshape_msg).

(** [m.T.dot(z)] for a [D]-by-[D] matrix [m] and a [D]-vector [z]:
    entry [j] is the sum over [i] of [m[i, j] * z[i]]. *)
Definition np_dot_T (D : nat) (m : ndarray R) (z : list R) : ndarray R :=
  mk_ndarray [D]
    (map (fun j =>
            fold_left (fun acc i =>
                         fadd acc (fmul (nth (i * D + j) (data m) f_zero)
                                        (nth i z f_zero)))
                      (seq 0 D) f_zero)
         (seq 0 D)).

(** [np.zeros(s)] *)
Definition np_zeros (s : list nat) : ndarray R :=
  mk_ndarray s (repeat f_zero (shape_size s)).
End Arrays.

(** ** Pure computations that may raise *)

Global Instance Outcome_ret : MRet Outcome := fun A a => Returned a.
Global Instance Outcome_bind : MBind Outcome := fun A B f m =>
  match m with
  | Returned a => f a
  | Raised e => Raised e
  end.

(** [v, p, N = s] for a shape tuple [s] *)
Definition unpack3 (s : list nat) : Outcome (nat * nat * nat) :=
  match s with
  | [v; p; N] => Returned (v, p, N)
  | [] | [_] | [_; _] => Raised (ValueError (unpack_few_msg (length s)))
  | _ => Raised (ValueError unpack_many_msg)
  end.

(** [l[i]] for a one-dimensional array and an index from [range] *)
Definition py_index {A : Type} (l : list A) (i : nat) : Outcome A :=
  match l !! i with
  | Some x => Returned x
  | None => Raised (IndexError index_msg)
  end.

(** Shape of [a[..., 0]] for an array of shape [s] *)
Definition ellipsis_0_shape (s : list nat) : Outcome (list nat) :=
  match rev s with
  | [] => Raised (IndexError too_many_indices_msg)
  | 0 :: _ => Raised (IndexError index_msg)
  | S _ :: r => Returned (rev r)
  end.

(** Row-major mask of the positions [np.tril_indices_from] selects in an
    [n]-by-[m] matrix: those with column <= row. *)
Definition tril_mask (n m : nat) : list bool :=
  flat_map (fun i => map (fun j => bool_decide (j <= i)) (seq 0 m)) (seq 0 n).

Definition tril_count (n m : nat) : nat :=
  length (filter (fun b => b = true) (tril_mask n m)).

Section Tril.
Context {R : Type} `{Scalar R}.

(** The zero matrix with [vals], in order, at the selected positions. *)
Fixpoint scatter (mask : list bool) (vals : list R) : list R :=
  match mask with
  | [] => []
  | true :: mk =>
      match vals with
      | v :: vs => v :: scatter mk vs
      | [] => f_zero :: scatter mk []
      end
  | false :: mk => f_zero :: scatter mk vals
  end.

(** [t[:, None]] *)
Definition np_new_axis1 (t : ndarray R) : Outcome (ndarray R) :=
  match shape t with
  | [] => Raised (IndexError too_many_indices_msg)
  | d :: r => Returned (mk_ndarray (d :: 1 :: r) (data t))
  end.

(** [L = np.zeros_like(S0); L[np.tril_indices_from(L)] = Lv] for a
    one-dimensional [Lv]; a value array of length 1 is broadcast. *)
Definition tril_from (S0_shape : list nat) (Lv : list R)
  : Outcome (ndarray R) :=
  match S0_shape with
  | [n; m] =>
      if length Lv =? tril_count n m
      then Returned (mk_ndarray [n; m] (scatter (tril_mask n m) Lv))
      else match Lv with
           | [v] => Returned (mk_ndarray [n; m]
                       (scatter (tril_mask n m) (repeat v (tril_count n m))))
           | _ => Raised (ValueError assign_msg)
           end
  | _ => Raised (ValueError tril_msg)
  end.
End Tril.

(** ** The random stream *)

(** What [np.random] was asked for. *)
Inductive Draw (R : Type) : Type :=
| DrawUniform                      (* np.random.uniform() *)
| DrawNormal (loc scale : R)       (* np.random.normal(loc, scale) *)
| DrawLognormal (mu sigma : R).    (* np.random.lognormal(mu, sigma) *)
Arguments DrawUniform {R}.
Arguments DrawNormal {R} _ _.
Arguments DrawLognormal {R} _ _.

(** A generator: each draw gives a value and the next generator state. *)
Class RandomState (R G : Type) := {
  rs_uniform : G -> R * G;
  rs_normal : R -> R -> G -> R * G;
  rs_lognormal : R -> R -> G -> R * G;
}.

Record Rng (R G : Type) : Type := mk_Rng {
  gen : G;
  draws : list (Draw R);     (* oldest first *)
}.
Arguments mk_Rng {R G} gen draws.
Arguments gen {R G} _.
Arguments draws {R G} _.

(** ** State and exceptions *)

Section Monad.
Context {R G : Type} `{Scalar R} `{RandomState R G}.

Definition M (St A : Type) : Type :=
  St * Rng R G -> Outcome A * (St * Rng R G).

Global Instance M_ret {St} : MRet (M St) := fun A a w => (Returned a, w).
Global Instance M_bind {St} : MBind (M St) := fun A B f m w =>
  match m w with
  | (Returned a, w') => f a w'
  | (Raised e, w') => (Raised e, w')
  end.

Definition raise {St A} (e : Exn) : M St A := fun w => (Raised e, w).

Definition lift {St A} (o : Outcome A) : M St A := fun w => (o, w).

Definition get_store {St} : M St St := fun w => (Returned (fst w), w).

Definition modify_store {St} (f : St -> St) : M St unit :=
  fun w => (Returned tt, (f (fst w), snd w)).

(** Run a computation that uses no store inside one that has a store. *)
Definition frame {St A} (m : M unit A) : M St A := fun w =>
  match m (tt, snd w) with
  | (o, (_, rng')) => (o, (fst w, rng'))
  end.

Definition random_uniform {St} : M St R := fun w =>
  let '(u, g) := rs_uniform (gen (snd w)) in
  (Returned u, (fst w, mk_Rng g (draws (snd w) ++ [DrawUniform]))).

Definition random_normal {St} (loc scale : R) : M St R := fun w =>
  let '(x, g) := rs_normal loc scale (gen (snd w)) in
  (Returned x, (fst w, mk_Rng g (draws (snd w) ++ [DrawNormal loc scale]))).

Definition random_lognormal {St} (mu sigma : R) : M St R := fun w =>
  let '(x, g) := rs_lognormal mu sigma (gen (snd w)) in
  (Returned x, (fst w, mk_Rng g (draws (snd w) ++ [DrawLognormal mu sigma]))).

(** A computation keeps the store when it never writes it. *)
Definition keeps_store {St A} (m : M St A) : Prop :=
  forall w, fst (snd (m w)) = fst w.

(** [np.random.normal(size=n)]: [n] standard normal draws, in order *)
Fixpoint random_normal_size {St} (n : nat) : M St (list R) :=
  match n with
  | 0 => mret []
  | S n' =>
      z ← random_normal f_zero f_one;
      zs ← random_normal_size n';
      mret (z :: zs)
  end.
End Monad.

(** ** External collaborators

    Functions of [regain.bayesian.stats], [regain.bayesian.wishart_process_],
    numpy, scipy and scikit-learn that the module calls and whose values the
    properties below do not depend on.  They are pure. *)
Class Collaborators (R : Type) := {
  (* regain.bayesian.wishart_process_ *)
  GWP_construct : ndarray R -> ndarray R -> option (ndarray R) -> ndarray R;
  (* regain.bayesian.stats *)
  log_lik_frob : ndarray R -> ndarray R -> R -> R;
  log_likelihood_normal : R -> R -> R -> R;
  lognormal_logpdf : R -> R -> R -> R;     (* x, mu, sigma *)
  lognormal_pdf : R -> R -> R -> R;        (* x, mu, sigma *)
  lognstat : R -> R -> R * R;
  (* np.array([u.dot(u.T) for u in a.T]) *)
  cross_products : ndarray R -> ndarray R;
  (* scipy.linalg.pinvh *)
  pinvh : ndarray R -> ndarray R;
  (* sklearn.utils.extmath.fast_logdet *)
  fast_logdet : ndarray R -> R;
  (* np.tensordot(a, b, axes=([1, 0], [1, 0])) *)
  tensordot_10 : ndarray R -> ndarray R -> ndarray R;
  (* np.sum *)
  np_sum : ndarray R -> R;
}.

(** ** The state bundle *)

(** Modelled from the spec: the class of the state bundle passed to
    [elliptical_slice] is not part of the sources.  The spec describes it as
    an object with the named fields latent tensor [xx], cross-products [uut],
    covariance field [V], observed tensor [S] and factor [L], which the
    sampler reads as attributes and writes back by key. *)
Record Bundle (R : Type) : Type := mk_Bundle {
  b_xx : ndarray R;
  b_uut : ndarray R;
  b_V : ndarray R;
  b_S : ndarray R;
  b_L : ndarray R;
}.
Arguments mk_Bundle {R} _ _ _ _ _.
Arguments b_xx {R} _.
Arguments b_uut {R} _.
Arguments b_V {R} _.
Arguments b_S {R} _.
Arguments b_L {R} _.

Definition set_xx {R} (a : ndarray R) (b : Bundle R) : Bundle R :=
  mk_Bundle a (b_uut b) (b_V b) (b_S b) (b_L b).
Definition set_uut {R} (a : ndarray R) (b : Bundle R) : Bundle R :=
  mk_Bundle (b_xx b) a (b_V b) (b_S b) (b_L b).
Definition set_V {R} (a : ndarray R) (b : Bundle R) : Bundle R :=
  mk_Bundle (b_xx b) (b_uut b) a (b_S b) (b_L b).

(** ** elliptical_slice *)

(** The values computed by one pass through the loop body up to the test. *)
Record Proposal (R : Type) : Type := mk_Proposal {
  p_xx : ndarray R;     (* xx_proposal *)
  p_uut : ndarray R;    (* uut *)
  p_V : ndarray R;      (* V *)
  p_ll : R;             (* cur_log_like *)
}.
Arguments mk_Proposal {R} _ _ _ _.
Arguments p_xx {R} _.
Arguments p_uut {R} _.
Arguments p_V {R} _.
Arguments p_ll {R} _.

(** How the [for] loop ends, with the locals at that point: by [break], or
    by running out of iterations (the [else] branch of the loop). *)
Inductive LoopExit (R : Type) : Type :=
| Break (iteration_ : nat) (phi phi_min phi_max : R) (pr : Proposal R)
| Exhausted.
Arguments Break {R} _ _ _ _ _.
Arguments Exhausted {R}.

(** The locals when the loop is entered. *)
Record Setup (R : Type) : Type := mk_Setup {
  s_initial_theta : ndarray R;
  s_S : ndarray R;
  s_L : ndarray R;
  s_nu : ndarray R;
  s_hh : R;
  s_phi : R;
  s_phi_min : R;
  s_phi_max : R;
}.
Arguments mk_Setup {R} _ _ _ _ _ _ _ _.
Arguments s_initial_theta {R} _.
Arguments s_S {R} _.
Arguments s_L {R} _.
Arguments s_nu {R} _.
Arguments s_hh {R} _.
Arguments s_phi {R} _.
Arguments s_phi_min {R} _.
Arguments s_phi_max {R} _.

Section EllipticalSlice.
Context {R G : Type} `{Scalar R} `{RandomState R G} `{Collaborators R}.

Local Abbreviation M := (@M R G).

(** Lines 65-73: the ellipse. *)
Definition choose_nu {St} (prior initial_theta : ndarray R) (D : nat)
  : M St (ndarray R) :=
  if np_size prior =? D then
    mret prior
  else
    if decide (shape prior ≠ [D; D]) then
      raise (ValueError prior_shape_msg)
    else
      z ← random_normal_size D;
      lift (np_reshape (np_dot_T D prior z) (shape initial_theta)).

(** Lines 79-88: the bracket of angles and the first proposal;
    the result is [(phi, phi_min, phi_max)]. *)
Definition initial_bracket {St} (angle_range : R) : M St (R * R * R) :=
  if fle angle_range f_zero then
    u ← random_uniform;
    let phi := fmul (fmul u f_two) f_pi in
    let phi_min := fsub phi (fmul f_two f_pi) in
    let phi_max := phi in
    mret (phi, phi_min, phi_max)
  else
    u ← random_uniform;
    let phi_min := fmul (fneg angle_range) u in
    let phi_max := fadd phi_min angle_range in
    u' ← random_uniform;
    let phi := fadd (fmul u' (fsub phi_max phi_min)) phi_min in
    mret (phi, phi_min, phi_max).

(** Lines 53-88. *)
Definition slice_setup (prior : ndarray R) (cur_log_like : option R)
    (variance angle_range : R) : M (Bundle R) (Setup R) :=
  xx ← get_store;
  let initial_theta := b_xx xx in
  '(v, p, N) ← lift (unpack3 (shape initial_theta));
  let D := v * p * N in
  let Sobs := b_S xx in   (* S *)
  let L := b_L xx in
  let cur_log_like :=
    match cur_log_like with
    | None => log_lik_frob Sobs (b_V xx) variance
    | Some c => c
    end in
  nu ← choose_nu prior initial_theta D;
  u ← random_uniform;
  let hh := fadd (fmul (f_lit (1 # 1000)) (flog u)) cur_log_like in
  '(phi, phi_min, phi_max) ← initial_bracket angle_range;
  mret (mk_Setup initial_theta Sobs L nu hh phi phi_min phi_max).

(** Lines 94-97: the proposed point and what is derived from it. *)
Definition propose (initial_theta nu Sobs L : ndarray R) (variance phi : R)
  : Outcome (Proposal R) :=
  a ← np_add (np_scale initial_theta (fcos phi)) (np_scale nu (fsin phi));
  let xx_proposal := np_real a in
  let uut := cross_products xx_proposal in
  let V := GWP_construct xx_proposal L (Some uut) in
  let cur_log_like := log_lik_frob Sobs V variance in
  mret (mk_Proposal xx_proposal uut V cur_log_like).

(** Lines 104-112: shrink the slice to the rejected point; the result is
    [(phi_min, phi_max)]. *)
Definition shrink (phi phi_min phi_max : R) : Outcome (R * R) :=
  if fgt phi f_zero then mret (phi_min, phi)
  else if flt phi f_zero then mret (phi, phi_max)
  else Raised (RuntimeError shrunk_msg).

(** Lines 92-117: [n] iterations are left, [iteration_] have been made. *)
Fixpoint slice_loop {St} (initial_theta nu Sobs L : ndarray R) (variance hh : R)
    (n iteration_ : nat) (phi phi_min phi_max : R) : M St (LoopExit R) :=
  match n with
  | 0 => mret Exhausted
  | S n' =>
      pr ← lift (propose initial_theta nu Sobs L variance phi);
      if fgt (p_ll pr) hh then
        mret (Break iteration_ phi phi_min phi_max pr)
      else
        '(phi_min, phi_max) ← lift (shrink phi phi_min phi_max);
        u ← random_uniform;
        let phi := fadd (fmul u (fsub phi_max phi_min)) phi_min in
        slice_loop initial_theta nu Sobs L variance hh
                   n' (S iteration_) phi phi_min phi_max
  end.

(** Lines 119-129: write the state bundle and pick the returned
    log-likelihood. *)
Definition commit (initial_theta : ndarray R) (cur_log_like_start : option R)
    (exit : LoopExit R) : M (Bundle R) (option R) :=
  match exit with
  | Exhausted =>
      _ ← modify_store (set_xx initial_theta);
      mret cur_log_like_start
  | Break _ _ _ _ pr =>
      _ ← modify_store (set_uut (p_uut pr));
      _ ← modify_store (set_xx (p_xx pr));
      _ ← modify_store (set_V (p_V pr));
      mret (Some (p_ll pr))
  end.

(** [elliptical_slice(xx, prior, cur_log_like, variance, angle_range,
    max_iter)]: the bundle [xx] is the store, the result is the second
    component of the returned pair (the first is [xx] itself). *)
Definition elliptical_slice (prior : ndarray R) (cur_log_like : option R)
    (variance angle_range : R) (max_iter : Z) : M (Bundle R) (option R) :=
  s ← slice_setup prior cur_log_like variance angle_range;
  exit ← slice_loop (s_initial_theta s) (s_nu s) (s_S s) (s_L s) variance
                    (s_hh s) (Z.to_nat max_iter) 0
                    (s_phi s) (s_phi_min s) (s_phi_max s);
  commit (s_initial_theta s) cur_log_like exit.
End EllipticalSlice.

(** ** sample_hyper_kernel and logpunorm *)

Section HyperKernel.
Context {R G : Type} `{Scalar R} `{RandomState R G} `{Collaborators R}.

Local Abbreviation M := (@M R G).

(** [logpunorm(inverse_width, t, umat, kern, mean_prior, var_prior)] *)
Definition logpunorm (inverse_width : R) (t umat : ndarray R)
    (kern : ndarray R -> R -> ndarray R) (mean_prior var_prior : R)
  : Outcome R :=
  t_col ← np_new_axis1 t;
  let K := kern t_col inverse_width in
  let k_inverse := pinvh K in
  '(v, p, n) ← unpack3 (shape umat);
  let F := tensordot_10 umat umat in
  Fk ← np_mul F k_inverse;
  let logpugl := fadd (fmul (f_nat (v * p)) (fast_logdet K)) (np_sum Fk) in
  let logpugl :=
    fadd logpugl (fmul (f_nat (np_size umat)) (flog (fmul f_two f_pi))) in
  let logpugl := fmul logpugl (f_lit (-1 # 2)) in
  let '(mu_prior, sigma_prior) := lognstat mean_prior var_prior in
  let logp_prior := lognormal_logpdf inverse_width mu_prior sigma_prior in
  let logprob := fadd logpugl logp_prior in
  mret logprob.

(** Lines 174-175 *)
Definition acceptance_proba (logpzast logpztau qztauzast qzastztau : R) : R :=
  py_min f_one (fmul (fexp (fsub logpzast logpztau))
                     (fdiv qztauzast qzastztau)).

(** [sample_hyper_kernel(initial_theta, var_proposal, t, u, kern,
    mean_prior, var_prior)] *)
Definition sample_hyper_kernel (initial_theta var_proposal : R)
    (t u : ndarray R) (kern : ndarray R -> R -> ndarray R)
    (mean_prior var_prior : R) : M unit (R * bool) :=
  let '(mu, sigma) := lognstat initial_theta var_proposal in
  proposal ← random_lognormal mu sigma;
  logpzast ← lift (logpunorm proposal t u kern mean_prior var_prior);
  let qzastztau := lognormal_pdf proposal mu sigma in
  let '(mu, sigma) := lognstat proposal var_proposal in
  logpztau ← lift (logpunorm initial_theta t u kern mean_prior var_prior);
  let qztauzast := lognormal_pdf initial_theta mu sigma in
  let acceptance_proba :=
    acceptance_proba logpzast logpztau qztauzast qzastztau in
  draw ← random_uniform;
  let accept := flt draw acceptance_proba in
  let sample := if accept then proposal else initial_theta in
  mret (sample, accept).
End HyperKernel.

(** ** sample_L2, _sample_ell_comp and logp_ell_posterior *)

Section CholeskyFactor.
Context {R G : Type} `{Scalar R} `{RandomState R G} `{Collaborators R}.

Local Abbreviation M := (@M R G).

(** [logp_ell_posterior(Lv, i, S, umat, var_err, mu_prior, var_prior,
    uut)] for a one-dimensional [Lv] *)
Definition logp_ell_posterior (Lv : list R) (i : nat) (Sobs umat : ndarray R)
    (var_err mu_prior var_prior : R) (uut : option (ndarray R)) : Outcome R :=
  S0_shape ← ellipsis_0_shape (shape Sobs);
  L ← tril_from S0_shape Lv;
  let D := GWP_construct umat L uut in
  let logpS := log_lik_frob Sobs D var_err in
  Lv_i ← py_index Lv i;
  let logpL := log_likelihood_normal Lv_i mu_prior var_prior in
  mret (fadd logpS logpL).

(** Line 260 *)
Definition ell_acceptance (logpLast logpLtau q_tau_ast q_ast_tau : R) : R :=
  py_min f_one (fmul (fexp (fsub logpLast logpLtau))
                     (fdiv q_tau_ast q_ast_tau)).

(** [_sample_ell_comp(Ltaug, i, sigma2Lprop, S, umat, var_err, mu_prior,
    var_prior, uut)].  [Ltaug] is the content of the caller's array at the
    time of the call; the function works on a copy and does not write it. *)
Definition _sample_ell_comp (Ltaug : list R) (i : nat) (sigma2Lprop : R)
    (Sobs umat : ndarray R) (var_err mu_prior var_prior : R)
    (uut : option (ndarray R)) : M unit R :=
  Ltau ← lift (py_index Ltaug i);
  Last ← random_normal Ltau (fsqrt sigma2Lprop);
  let Lastg := <[i := Last]> Ltaug in
  logpLast ← lift (logp_ell_posterior Lastg i Sobs umat var_err
                                      mu_prior var_prior uut);
  let q_ast_tau := norm_pdf Last Ltau (fsqrt sigma2Lprop) in
  logpLtau ← lift (logp_ell_posterior Ltaug i Sobs umat var_err
                                      mu_prior var_prior uut);
  let q_tau_ast := norm_pdf Ltau Last (fsqrt sigma2Lprop) in
  let A := ell_acceptance logpLast logpLtau q_tau_ast q_ast_tau in
  draw ← random_uniform;
  mret (if flt draw A then Last else Ltau).

(** Lines 232-236: the body of the loop for the indices [idxs] that are
    left; the store is the caller's array [Ltau]. *)
Fixpoint sample_L2_loop (idxs : list nat) (L_proposal : list R)
    (var_proposal : list R) (Sobs umat : ndarray R) (var_err : R)
    (mu_prior var_prior : list R) (uut : option (ndarray R))
  : M (list R) (list R) :=
  match idxs with
  | [] => mret L_proposal
  | i :: rest =>
      Ltau ← get_store;
      var_proposal_i ← lift (py_index var_proposal i);
      mu_prior_i ← lift (py_index mu_prior i);
      var_prior_i ← lift (py_index var_prior i);
      x ← frame (_sample_ell_comp Ltau i var_proposal_i Sobs umat var_err
                                  mu_prior_i var_prior_i uut);
      let L_proposal := <[i := x]> L_proposal in
      y ← lift (py_index L_proposal i);
      _ ← modify_store (fun Ltau => <[i := y]> Ltau);
      sample_L2_loop rest L_proposal var_proposal Sobs umat var_err
                     mu_prior var_prior uut
  end.

(** [sample_L2(Ltau, var_proposal, S, umat, var_err, mu_prior, var_prior,
    uut)] for a one-dimensional [Ltau], which is the store. *)
Definition sample_L2 (var_proposal : list R) (Sobs umat : ndarray R)
    (var_err : R) (mu_prior var_prior : list R) (uut : option (ndarray R))
  : M (list R) (list R) :=
  Ltau ← get_store;
  let free_elements := length Ltau in
  let L_proposal := repeat f_zero free_elements in
  sample_L2_loop (seq 0 free_elements) L_proposal var_proposal Sobs umat
                 var_err mu_prior var_prior uut.

(** The sweep as the specification words it: the elements are visited in
    index order, and the step for an element runs on the vector in which
    the elements before it already have their new values ([done]) and the
    others still have their old ones ([todo]). *)
Fixpoint sweep_spec (done todo : list R) (var_proposal : list R)
    (Sobs umat : ndarray R) (var_err : R) (mu_prior var_prior : list R)
    (uut : option (ndarray R)) : M unit (list R) :=
  match todo with
  | [] => mret done
  | old :: rest =>
      let i := length done in
      var_proposal_i ← lift (py_index var_proposal i);
      mu_prior_i ← lift (py_index mu_prior i);
      var_prior_i ← lift (py_index var_prior i);
      x ← _sample_ell_comp (done ++ old :: rest) i var_proposal_i Sobs umat
                           var_err mu_prior_i var_prior_i uut;
      sweep_spec (done ++ [x]) rest var_proposal Sobs umat var_err
                 mu_prior var_prior uut
  end.
End CholeskyFactor.

(** ** Exact rationals: an executable instance

    Rationals in lowest terms, with low-order rational approximations of the
    transcendental functions (exact at the points the examples use: cosine
    and sine at 0, logarithm and square root at 1).  The collaborators are
    small stand-ins of the right type. *)

Module Rational.
Definition q_exp (x : Q) : Q :=
  if Qle_bool 0 x then Qred (1 + x) else Qred (/ (1 - x)).

#[export] Instance scalar : Scalar Q := {|
  f_lit := Qred;
  f_pi := 355 # 113;
  fadd := fun x y => Qred (x + y);
  fsub := fun x y => Qred (x - y);
  fmul := fun x y => Qred (x * y);
  fdiv := fun x y => Qred (x / y);
  fneg := fun x => Qred (- x);
  fcos := fun x => Qred (1 - x * x / 2);
  fsin := fun x => Qred x;
  flog := fun x => Qred (x - 1);
  fexp := q_exp;
  fsqrt := fun x => Qred ((x + 1) / 2);
  freal := fun x => x;
  flt := fun x y => negb (Qle_bool y x);
  fle := Qle_bool;
|}.

(** The generator is a tape of variates: a uniform draw reads the next one,
    a normal draw shifts and scales it, a log-normal draw exponentiates
    the normal one.  An exhausted tape gives 0. *)
Definition next (g : list Q) : Q * list Q :=
  match g with
  | [] => (0%Q, [])
  | x :: g' => (x, g')
  end.

#[export] Instance tape : RandomState Q (list Q) := {|
  rs_uniform := next;
  rs_normal := fun loc scale g =>
    let '(z, g') := next g in (fadd loc (fmul scale z), g');
  rs_lognormal := fun mu sigma g =>
    let '(z, g') := next g in (fexp (fadd mu (fmul sigma z)), g');
|}.

Definition sum_list (l : list Q) : Q := fold_left fadd l f_zero.

(** [np.array([u.dot(u.T) for u in a.T])] for [a] of shape [(v, p, N)]:
    shape [(N, p, p)], entry [(n, i, j)] is the sum over [k] of
    [a[k, i, n] * a[k, j, n]]. *)
Definition cross3 (a : ndarray Q) : ndarray Q :=
  match shape a with
  | [v; p; N] =>
      mk_ndarray [N; p; p]
        (flat_map (fun n =>
           flat_map (fun i =>
             map (fun j =>
                    sum_list (map (fun k => fmul (np_get a [k; i; n])
                                                 (np_get a [k; j; n]))
                                  (seq 0 v)))
                 (seq 0 p))
             (seq 0 p))
           (seq 0 N))
  | _ => a
  end.

(** minus the sum of squared differences, over the variance *)
Definition neg_sq_dist (a b : ndarray Q) (variance : Q) : Q :=
  fdiv (fneg (sum_list (map (fun xy => fsquare (fsub (fst xy) (snd xy)))
                            (combine (data a) (data b)))))
       variance.

#[export] Instance collaborators : Collaborators Q := {|
  GWP_construct := fun umat L uut =>
    np_scale match uut with
             | Some c => c
             | None => cross3 umat
             end
             (sum_list (data L));
  log_lik_frob := neg_sq_dist;
  log_likelihood_normal := fun x m v =>
    fdiv (fneg (fsquare (fsub x m))) (fmul f_two v);
  lognormal_logpdf := fun x mu sigma =>
    fdiv (fneg (fsquare (fsub (flog x) mu))) (fmul f_two (fsquare sigma));
  lognormal_pdf := fun x mu sigma =>
    fexp (fdiv (fneg (fsquare (fsub (flog x) mu)))
               (fmul f_two (fsquare sigma)));
  lognstat := fun m v => (flog m, fsqrt v);
  cross_products := cross3;
  pinvh := fun K => K;
  fast_logdet := fun K => sum_list (data K);
  tensordot_10 := fun a b => mk_ndarray [1; 1] [sum_list (data a)];
  np_sum := fun a => sum_list (data a);
|}.

(** [kern(t, inverse_width)]: a one-by-one kernel matrix *)
Definition kern1 (t : ndarray Q) (inverse_width : Q) : ndarray Q :=
  mk_ndarray [1; 1] [fadd f_one inverse_width].

Definition world {St : Type} (st : St) (g : list Q) : St * Rng Q (list Q) :=
  (st, mk_Rng g []).
End Rational.

(** ** Real numbers: the instance for identities of exact arithmetic *)

Module Real.
#[export] Instance scalar : Scalar R := {|
  f_lit := Q2R;
  f_pi := PI;
  fadd := Rplus;
  fsub := Rminus;
  fmul := Rmult;
  fdiv := Rdiv;
  fneg := Ropp;
  fcos := cos;
  fsin := sin;
  flog := ln;
  fexp := exp;
  fsqrt := sqrt;
  freal := fun x => x;
  flt := fun x y => if Rlt_dec x y then true else false;
  fle := fun x y => if Rle_dec x y then true else false;
|}.
End Real.

(** The per-element step with the symmetric-proposal acceptance ratio
    [min(1, exp(logpLast - logpLtau))], as the specification words it. *)
Section SymmetricStep.
Context {R G : Type} `{Scalar R} `{RandomState R G} `{Collaborators R}.

Definition symmetric_acceptance (logpLast logpLtau : R) : R :=
  py_min f_one (fexp (fsub logpLast logpLtau)).

Definition sample_ell_comp_symmetric (Ltaug : list R) (i : nat)
    (sigma2Lprop : R) (Sobs umat : ndarray R)
    (var_err mu_prior var_prior : R) (uut : option (ndarray R))
  : @M R G unit R :=
  Ltau ← lift (py_index Ltaug i);
  Last ← random_normal Ltau (fsqrt sigma2Lprop);
  let Lastg := <[i := Last]> Ltaug in
  logpLast ← lift (logp_ell_posterior Lastg i Sobs umat var_err
                                      mu_prior var_prior uut);
  logpLtau ← lift (logp_ell_posterior Ltaug i Sobs umat var_err
                                      mu_prior var_prior uut);
  let A := symmetric_acceptance logpLast logpLtau in
  draw ← random_uniform;
  mret (if flt draw A then Last else Ltau).
End SymmetricStep.

(** ** Runs of the slice-sampling loop *)

Section Runs.
Context {R G : Type} `{Scalar R} `{RandomState R G} `{Collaborators R}.

(** [rejections ... n (phi, phi_min, phi_max) rng b' rng']: starting with
    the angle [phi], the bracket [phi_min, phi_max] and the generator
    [rng], the loop body runs [n] times to its end: each time the proposed
    point is not on the slice, the bracket is shrunk to the rejected angle
    and a new angle is drawn; [b'] and [rng'] are the angle, the bracket
    and the generator after that. *)
Inductive rejections (initial_theta nu Sobs L : ndarray R) (variance hh : R)
  : nat -> R * R * R -> Rng R G -> R * R * R -> Rng R G -> Prop :=
| rejections_0 b rng :
    rejections initial_theta nu Sobs L variance hh 0 b rng b rng
| rejections_S n phi phi_min phi_max rng pr phi_min1 phi_max1 u g b' rng' :
    propose initial_theta nu Sobs L variance phi = Returned pr ->
    fgt (p_ll pr) hh = false ->
    shrink phi phi_min phi_max = Returned (phi_min1, phi_max1) ->
    rs_uniform (gen rng) = (u, g) ->
    rejections initial_theta nu Sobs L variance hh n
      (fadd (fmul u (fsub phi_max1 phi_min1)) phi_min1, phi_min1, phi_max1)
      (mk_Rng g (draws rng ++ [DrawUniform])) b' rng' ->
    rejections initial_theta nu Sobs L variance hh (S n)
      (phi, phi_min, phi_max) rng b' rng'.
End Runs.

(** ** Concrete inputs *)

Module Example.
Import Rational.

Definition arr (s : list nat) (d : list Q) : ndarray Q := mk_ndarray s d.

(** a bundle whose latent tensor has shape (1, 1, 2), so D = 2 *)
Definition bundle_112 : Bundle Q :=
  mk_Bundle (arr [1; 1; 2] [1; 2]%Q)
            (arr [2; 1; 1] [1; 4]%Q)
            (arr [2; 1; 1] [1; 4]%Q)
            (arr [2; 1; 1] [1; 4]%Q)
            (arr [1; 1] [1%Q]).

(** a bundle whose latent tensor has shape (2, 2, 3), so D = 12 *)
Definition bundle_223 : Bundle Q :=
  mk_Bundle (arr [2; 2; 3] [1; 2; 3; 4; 5; 6; 7; 8; 9; 10; 11; 12]%Q)
            (arr [3; 2; 2] [])
            (arr [3; 2; 2] [])
            (arr [3; 2; 2] [])
            (arr [2; 2] [1; 0; 0; 1]%Q).

(** a prior sample with the shape of the latent tensor of [bundle_112] *)
Definition prior_112 : ndarray Q := arr [1; 1; 2] [3; 4]%Q.

(** a flat prior sample with 12 elements *)
Definition prior_12 : ndarray Q :=
  arr [12] [1; 1; 1; 1; 1; 1; 1; 1; 1; 1; 1; 1]%Q.

(** a prior with 3 elements *)
Definition prior_3 : ndarray Q := arr [3] [3; 4; 5]%Q.
End Example.

(** A generator and collaborators over the real numbers, to apply the
    real-arithmetic identity at concrete values. *)
Module RealExample.
#[export] Instance constant_gen : RandomState R unit := {|
  rs_uniform := fun g => (0%R, g);
  rs_normal := fun loc scale g => (loc, g);
  rs_lognormal := fun mu sigma g => (exp mu, g);
|}.

Definition flat : ndarray R := mk_ndarray [1; 1] [1%R].

#[export] Instance collaborators : Collaborators R := {|
  GWP_construct := fun umat L uut => L;
  log_lik_frob := fun Sobs V variance => 0%R;
  log_likelihood_normal := fun x m v => (- (x - m) * (x - m) / (2 * v))%R;
  lognormal_logpdf := fun x mu sigma => 0%R;
  lognormal_pdf := fun x mu sigma => 1%R;
  lognstat := fun m v => (ln m, sqrt v);
  cross_products := fun a => a;
  pinvh := fun K => K;
  fast_logdet := fun K => 0%R;
  tensordot_10 := fun a b => a;
  np_sum := fun a => 0%R;
|}.
End RealExample.

(** ** Predicates used by the properties *)

Section Consistency.
Context {R : Type} `{Collaborators R}.

(** The cached fields of a bundle are the ones derived from its latent
    tensor and its factor, as lines 95-96 compute them. *)
Definition consistent (b : Bundle R) : Prop :=
  b_uut b = cross_products (b_xx b)
  /\ b_V b = GWP_construct (b_xx b) (b_L b) (Some (b_uut b)).
End Consistency.

(** The latent tensor has three axes. *)
Definition rank3 (s : list nat) : Prop := exists v p N, s = [v; p; N].

(** The values at the selected positions, in order: what
    [L[np.tril_indices_from(L)]] reads. *)
Fixpoint gather {A : Type} (mask : list bool) (l : list A) : list A :=
  match mask, l with
  | true :: mk, x :: l' => x :: gather mk l'
  | false :: mk, _ :: l' => gather mk l'
  | _, _ => []
  end.

(** Entry [(i, j)] of a matrix with [m] columns stored in row-major order *)
Definition entry {A : Type} (m : nat) (l : list A) (i j : nat) : option A :=
  l !! (i * m + j).

(** The bracket of angles contains the angle 0 of the current point and the
    proposed angle (real numbers). *)
Definition bracket_ok (b : R * R * R) : Prop :=
  (b.1.2 <= 0 <= b.2)%R /\ (b.1.2 <= b.1.1 <= b.2)%R.

(** A generator over the real numbers whose variates are all 1/2. *)
Module RealHalf.
#[export] Instance half_gen : RandomState R unit := {|
  rs_uniform := fun g => ((1 / 2)%R, g);
  rs_normal := fun loc scale g => ((loc + scale / 2)%R, g);
  rs_lognormal := fun mu sigma g => (exp (mu + sigma / 2), g);
|}.
End RealHalf.

(** * Properties *)

(** ** Reasoning about monadic programs *)

Section MonadFacts.
Context {R G : Type} `{Scalar R} `{RandomState R G}.

Local Abbreviation M := (@M R G).

Lemma bind_Returned {St A B} (m : M St A) (f : A -> M St B) w a w' :
  m w = (Returned a, w') -> (m ≫= f) w = f a w'.
Proof. intros E. unfold mbind, M_bind. now rewrite E. Qed.

Lemma bind_Raised {St A B} (m : M St A) (f : A -> M St B) w e w' :
  m w = (Raised e, w') -> (m ≫= f) w = (Raised e, w').
Proof. intros E. unfold mbind, M_bind. now rewrite E. Qed.

Lemma bind_inv_Returned {St A B} (m : M St A) (f : A -> M St B) w b w2 :
  (m ≫= f) w = (Returned b, w2) ->
  exists a w1, m w = (Returned a, w1) /\ f a w1 = (Returned b, w2).
Proof.
  unfold mbind, M_bind. destruct (m w) as [[a | e] w1]; [eauto | discriminate].
Qed.

Lemma keeps_ret {St A} (a : A) :
  keeps_store (R := R) (G := G) (St := St) (mret a).
Proof. now intros w. Qed.

Lemma keeps_raise {St A} e :
  keeps_store (R := R) (G := G) (St := St) (A := A) (raise e).
Proof. now intros w. Qed.

Lemma keeps_lift {St A} (o : Outcome A) :
  keeps_store (R := R) (G := G) (St := St) (lift o).
Proof. now intros w. Qed.

Lemma keeps_get {St} : keeps_store (R := R) (G := G) (St := St) get_store.
Proof. now intros w. Qed.

Lemma keeps_uniform {St} :
  keeps_store (R := R) (G := G) (St := St) random_uniform.
Proof. intros w. unfold random_uniform. now destruct (rs_uniform _). Qed.

Lemma keeps_normal {St} loc scale :
  keeps_store (R := R) (G := G) (St := St) (random_normal loc scale).
Proof. intros w. unfold random_normal. now destruct (rs_normal _ _ _). Qed.

Lemma keeps_bind {St A B} (m : M St A) (f : A -> M St B) :
  keeps_store m -> (forall a, keeps_store (f a)) -> keeps_store (m ≫= f).
Proof.
  intros Hm Hf w. unfold mbind, M_bind.
  specialize (Hm w). destruct (m w) as [[a | e] w']; simpl in *.
  - now rewrite Hf.
  - exact Hm.
Qed.

Lemma keeps_normal_size {St} n :
  keeps_store (R := R) (G := G) (St := St) (random_normal_size n).
Proof.
  induction n as [| n IH]; simpl.
  - apply keeps_ret.
  - apply keeps_bind; [apply keeps_normal |].
    intros z. apply keeps_bind; [exact IH |]. intros zs. apply keeps_ret.
Qed.
End MonadFacts.

Create HintDb keeps.
#[global] Hint Resolve keeps_ret keeps_raise keeps_lift keeps_get keeps_uniform
  keeps_normal keeps_normal_size : keeps.

Ltac keeps :=
  repeat first
    [ progress auto with keeps
    | apply keeps_bind; [| intros ?]
    | match goal with
      | |- keeps_store (if ?c then _ else _) => destruct c
      | |- keeps_store (match ?x with _ => _ end) => destruct x
      | |- keeps_store (let '(_, _) := ?x in _) => destruct x
      end ].

Section SliceFacts.
Context {R G : Type} `{Scalar R} `{RandomState R G} `{Collaborators R}.

Lemma keeps_choose_nu {St} prior initial_theta D :
  keeps_store (R := R) (G := G) (St := St) (choose_nu prior initial_theta D).
Proof. unfold choose_nu. keeps. Qed.

Lemma keeps_initial_bracket {St} angle_range :
  keeps_store (R := R) (G := G) (St := St) (initial_bracket angle_range).
Proof. unfold initial_bracket. keeps. Qed.

Lemma keeps_slice_setup prior cur_log_like variance angle_range :
  keeps_store (slice_setup prior cur_log_like variance angle_range).
Proof.
  unfold slice_setup. keeps; auto using keeps_choose_nu, keeps_initial_bracket.
Qed.

Lemma keeps_slice_loop {St} initial_theta nu Sobs L variance hh n :
  forall it phi phi_min phi_max,
    keeps_store (R := R) (G := G) (St := St)
      (slice_loop initial_theta nu Sobs L variance hh n it phi phi_min phi_max).
Proof.
  induction n as [| n IH]; intros; simpl; keeps.
Qed.
End SliceFacts.

(** ** elliptical_slice *)

Section SliceTheorems.
Context {R G : Type} `{Scalar R} `{RandomState R G} `{Collaborators R}.

Local Abbreviation M := (@M R G).

(** What the locals at loop entry are, and that the setup leaves the
    bundle alone. *)
Lemma slice_setup_Returned prior cur_log_like variance angle_range b rng s w :
  slice_setup prior cur_log_like variance angle_range (b, rng)
    = (Returned s, w) ->
  fst w = b /\ s_initial_theta s = b_xx b /\ s_S s = b_S b /\ s_L s = b_L b.
Proof.
  intros E. split.
  - pose proof (keeps_slice_setup prior cur_log_like variance angle_range
                                  (b, rng)) as K.
    now rewrite E in K.
  - revert E. unfold slice_setup.
    intros E. apply bind_inv_Returned in E as (xx & w1 & E1 & E).
    injection E1 as <- <-.
    apply bind_inv_Returned in E as ([[v p] N] & w2 & _ & E).
    apply bind_inv_Returned in E as (nu & w3 & _ & E).
    apply bind_inv_Returned in E as (u & w4 & _ & E).
    apply bind_inv_Returned in E as ([[phi phi_min] phi_max] & w5 & _ & E).
    injection E as <- _. auto.
Qed.

Lemma set_xx_same (b : Bundle R) : set_xx (b_xx b) b = b.
Proof. now destruct b. Qed.

(** Rejected iterations are iterations of the loop. *)
Lemma slice_loop_rejections {St} initial_theta nu Sobs L variance hh
      n b rng b' rng' :
  rejections initial_theta nu Sobs L variance hh n b rng b' rng' ->
  forall m it (st : St),
    slice_loop initial_theta nu Sobs L variance hh (n + m) it
               b.1.1 b.1.2 b.2 (st, rng)
    = slice_loop initial_theta nu Sobs L variance hh m (it + n)
                 b'.1.1 b'.1.2 b'.2 (st, rng').
Proof.
  induction 1 as [b rng | n phi phi_min phi_max rng pr phi_min1 phi_max1
                            u g b' rng' Hpr Hrej Hshr Hu _ IH];
    intros m it st.
  - now rewrite Nat.add_0_r.
  - cbn [Nat.add slice_loop fst snd].
    unfold mbind at 1, M_bind at 1, lift at 1. rewrite Hpr, Hrej.
    unfold mbind at 1, M_bind at 1, lift at 1. rewrite Hshr.
    unfold mbind at 1, M_bind at 1, random_uniform at 1.
    cbn [fst snd]. rewrite Hu.
    specialize (IH m (S it) st). cbn [fst snd] in IH.
    fold (@slice_loop R G _ _ _ St). 
    replace (it + S n) with (S it + n) by lia. exact IH.
Qed.

(** The loop computes nothing before the first proposal, and stops at a
    proposal that is on the slice. *)
Lemma slice_loop_accept {St} initial_theta nu Sobs L variance hh
      n it phi phi_min phi_max pr (w : St * Rng R G) :
  propose initial_theta nu Sobs L variance phi = Returned pr ->
  fgt (p_ll pr) hh = true ->
  slice_loop initial_theta nu Sobs L variance hh (S n) it
             phi phi_min phi_max w
  = (Returned (Break it phi phi_min phi_max pr), w).
Proof.
  intros Hpr Hacc. cbn [slice_loop].
  unfold mbind, M_bind, lift. now rewrite Hpr, Hacc.
Qed.

(** A rejected proposal at the angle 0 stops the loop with the error. *)
Lemma slice_loop_zero {St} initial_theta nu Sobs L variance hh
      n it phi_min phi_max pr (w : St * Rng R G) :
  flt f_zero f_zero = false ->
  propose initial_theta nu Sobs L variance f_zero = Returned pr ->
  fgt (p_ll pr) hh = false ->
  slice_loop initial_theta nu Sobs L variance hh (S n) it
             f_zero phi_min phi_max w
  = (Raised (RuntimeError shrunk_msg), w).
Proof.
  intros Hz Hpr Hrej. cbn [slice_loop].
  unfold mbind, M_bind, lift, shrink, fgt in *. now rewrite Hpr, Hrej, Hz.
Qed.

(** A loop that ends by [break] ends at a proposal on the slice. *)
Lemma slice_loop_Break {St} initial_theta nu Sobs L variance hh n :
  forall it phi phi_min phi_max (w w' : St * Rng R G) it' phi' pmin' pmax' pr,
    slice_loop initial_theta nu Sobs L variance hh n it phi phi_min phi_max w
    = (Returned (Break it' phi' pmin' pmax' pr), w') ->
    propose initial_theta nu Sobs L variance phi' = Returned pr
    /\ fgt (p_ll pr) hh = true.
Proof.
  induction n as [| n IH]; intros it phi phi_min phi_max w w'
                                  it' phi' pmin' pmax' pr E.
  - discriminate E.
  - cbn [slice_loop] in E.
    apply bind_inv_Returned in E as (pr0 & w1 & E1 & E).
    injection E1 as E1 <-.
    destruct (fgt (p_ll pr0) hh) eqn:Hacc.
    + injection E as <- <- <- <- <- <-. auto.
    + apply bind_inv_Returned in E as ([pmin1 pmax1] & w2 & _ & E).
      apply bind_inv_Returned in E as (u & w3 & _ & E).
      exact (IH _ _ _ _ _ _ _ _ _ _ _ E).
Qed.

(** The locals at loop entry, step by step. *)
Lemma slice_setup_inv prior cur_log_like variance angle_range b rng s w :
  slice_setup prior cur_log_like variance angle_range (b, rng)
    = (Returned s, w) ->
  exists v p N rng1 u g,
    shape (b_xx b) = [v; p; N]
    /\ choose_nu prior (b_xx b) (v * p * N) (b, rng)
       = (Returned (s_nu s), (b, rng1))
    /\ rs_uniform (gen rng1) = (u, g)
    /\ s_hh s = fadd (fmul (f_lit (1 # 1000)) (flog u))
                     match cur_log_like with
                     | None => log_lik_frob (b_S b) (b_V b) variance
                     | Some c => c
                     end
    /\ initial_bracket angle_range (b, mk_Rng g (draws rng1 ++ [DrawUniform]))
       = (Returned (s_phi s, s_phi_min s, s_phi_max s), w).
Proof.
  unfold slice_setup. intros E.
  apply bind_inv_Returned in E as (xx & w1 & E1 & E).
  injection E1 as <- <-.
  apply bind_inv_Returned in E as ([[v p] N] & w2 & E2 & E).
  unfold lift in E2. injection E2 as E2 <-.
  apply bind_inv_Returned in E as (nu & [b3 rng1] & E3 & E).
  apply bind_inv_Returned in E as (u & w4 & E4 & E).
  apply bind_inv_Returned in E as ([[phi phi_min] phi_max] & w5 & E5 & E).
  injection E as <- <-. cbn [s_nu s_hh s_phi s_phi_min s_phi_max].
  pose proof (keeps_choose_nu prior (b_xx b) (v * p * N) (b, rng)) as K.
  rewrite E3 in K. cbn in K. subst b3.
  unfold random_uniform in E4. cbn [fst snd] in E4.
  destruct (rs_uniform (gen rng1)) as [u' g] eqn:Hu.
  injection E4 as -> <-.
  exists v, p, N, rng1, u, g. repeat split; try assumption.
  unfold unpack3 in E2.
  destruct (shape (b_xx b)) as [| a [| a' [| a'' [| ? ?]]]]; try discriminate.
  now injection E2 as -> -> ->.
Qed.

(** The whole call when the loop runs out of iterations. *)
Lemma elliptical_slice_soft prior cur_log_like variance angle_range max_iter
      b rng s w1 bk rng2 :
  slice_setup prior cur_log_like variance angle_range (b, rng)
    = (Returned s, w1) ->
  rejections (s_initial_theta s) (s_nu s) (s_S s) (s_L s) variance (s_hh s)
             (Z.to_nat max_iter) (s_phi s, s_phi_min s, s_phi_max s)
             (snd w1) bk rng2 ->
  elliptical_slice prior cur_log_like variance angle_range max_iter (b, rng)
  = (Returned cur_log_like, (b, rng2)).
Proof.
  intros Hs Hrej.
  destruct (slice_setup_Returned _ _ _ _ _ _ _ _ Hs) as (Hb & Hth & _ & _).
  destruct w1 as [b1 rng1]. cbn in Hb. subst b1.
  unfold elliptical_slice. rewrite (bind_Returned _ _ _ _ _ Hs).
  pose proof (slice_loop_rejections _ _ _ _ _ _ _ _ _ _ _ Hrej 0 0 b) as E.
  rewrite Nat.add_0_r in E. cbn [fst snd slice_loop] in E.
  erewrite bind_Returned by exact E.
  unfold commit, mbind, M_bind, modify_store, mret, M_ret. cbn [fst snd].
  now rewrite Hth, set_xx_same.
Qed.

(** The whole call when the loop raises or runs out of iterations leaves
    the bundle as it was; when the loop breaks, the proposal is written. *)
Lemma elliptical_slice_cases prior cur_log_like variance angle_range max_iter
      b rng :
  let r := elliptical_slice prior cur_log_like variance angle_range max_iter
                            (b, rng) in
  fst (snd r) = b
  \/ exists s w1 it phi phi_min phi_max pr,
      slice_setup prior cur_log_like variance angle_range (b, rng)
        = (Returned s, w1)
      /\ slice_loop (b_xx b) (s_nu s) (b_S b) (b_L b) variance (s_hh s)
                    (Z.to_nat max_iter) 0 (s_phi s) (s_phi_min s)
                    (s_phi_max s) w1
         = (Returned (Break it phi phi_min phi_max pr), (b, snd (snd r)))
      /\ propose (b_xx b) (s_nu s) (b_S b) (b_L b) variance phi = Returned pr
      /\ fgt (p_ll pr) (s_hh s) = true
      /\ fst r = Returned (Some (p_ll pr))
      /\ fst (snd r)
         = mk_Bundle (p_xx pr) (p_uut pr) (p_V pr) (b_S b) (b_L b).
Proof.
  cbv zeta. unfold elliptical_slice.
  destruct (slice_setup prior cur_log_like variance angle_range (b, rng))
    as [[s | e] w1] eqn:Hs.
  2:{ left. rewrite (bind_Raised _ _ _ _ _ Hs).
      pose proof (keeps_slice_setup prior cur_log_like variance angle_range
                                    (b, rng)) as K.
      now rewrite Hs in K. }
  destruct (slice_setup_Returned _ _ _ _ _ _ _ _ Hs) as (Hb & Hth & HS & HL).
  destruct w1 as [b1 rng1]. cbn in Hb. subst b1.
  rewrite (bind_Returned _ _ _ _ _ Hs), Hth, HS, HL.
  destruct (slice_loop (b_xx b) (s_nu s) (b_S b) (b_L b) variance (s_hh s)
                       (Z.to_nat max_iter) 0 (s_phi s) (s_phi_min s)
                       (s_phi_max s) (b, rng1))
    as [[exit | e] [b2 rng2]] eqn:Hl.
  2:{ left. rewrite (bind_Raised _ _ _ _ _ Hl).
      pose proof (keeps_slice_loop (b_xx b) (s_nu s) (b_S b) (b_L b) variance
                    (s_hh s) (Z.to_nat max_iter) 0 (s_phi s) (s_phi_min s)
                    (s_phi_max s) (b, rng1)) as K.
      now rewrite Hl in K. }
  pose proof (keeps_slice_loop (b_xx b) (s_nu s) (b_S b) (b_L b) variance
                (s_hh s) (Z.to_nat max_iter) 0 (s_phi s) (s_phi_min s)
                (s_phi_max s) (b, rng1)) as K.
  rewrite Hl in K. cbn in K. subst b2.
  rewrite (bind_Returned _ _ _ _ _ Hl).
  destruct exit as [it phi phi_min phi_max pr |].
  - right. exists s, (b, rng1), it, phi, phi_min, phi_max, pr.
    destruct (slice_loop_Break _ _ _ _ _ _ _ _ _ _ _ _ _ _ _ _ _ _ Hl)
      as [Hpr Hacc].
    unfold commit, mbind, M_bind, modify_store, mret, M_ret. cbn.
    repeat split; auto.
  - left. unfold commit, mbind, M_bind, modify_store, mret, M_ret. cbn.
    apply set_xx_same.
Qed.
End SliceTheorems.

Section SliceClaims.
Context {R G : Type} `{Scalar R} `{RandomState R G} `{Collaborators R}.

(** C1 (amended): when the latent tensor has shape (v, p, N) and D = v*p*N,
    a prior whose number of elements is not D and whose shape is not
    (D, D) makes [elliptical_slice] raise the input-validation
    [ValueError]; the bundle and the generator are as before the call, and
    no draw has been made. *)
Theorem elliptical_slice_invalid_prior
    prior cur_log_like variance angle_range max_iter b rng v p N :
  shape (b_xx b) = [v; p; N] ->
  np_size prior <> v * p * N ->
  shape prior <> [v * p * N; v * p * N] ->
  elliptical_slice prior cur_log_like variance angle_range max_iter (b, rng)
  = (Raised (ValueError prior_shape_msg), (b, rng)).
Proof.
  intros Hshape Hsize Hsq.
  unfold elliptical_slice, slice_setup.
  unfold mbind at 1, M_bind at 1.
  unfold mbind at 1, M_bind at 1, get_store at 1. cbn [fst snd].
  unfold mbind at 1, M_bind at 1, lift at 1. rewrite Hshape. cbn [unpack3].
  unfold mbind at 1, M_bind at 1, choose_nu.
  destruct (Nat.eqb_spec (np_size prior) (v * p * N)) as [E | _];
    [contradiction |].
  destruct (decide (shape prior ≠ [v * p * N; v * p * N])) as [_ | E];
    [reflexivity | contradiction].
Qed.

(** C3: when the loop body runs [max_iter] times and no proposal is on the
    slice, the call does not raise: it returns the log-likelihood it was
    given, and the bundle (latent tensor and all other fields) is as it was
    before the call. *)
Theorem elliptical_slice_exhausted
    prior cur_log_like variance angle_range max_iter b rng s w1 bk rng2 :
  slice_setup prior cur_log_like variance angle_range (b, rng)
    = (Returned s, w1) ->
  rejections (b_xx b) (s_nu s) (b_S b) (b_L b) variance (s_hh s)
             (Z.to_nat max_iter) (s_phi s, s_phi_min s, s_phi_max s)
             (snd w1) bk rng2 ->
  let r := elliptical_slice prior cur_log_like variance angle_range max_iter
                            (b, rng) in
  fst r = Returned cur_log_like
  /\ b_xx (fst (snd r)) = b_xx b
  /\ fst (snd r) = b
  /\ snd (snd r) = rng2.
Proof.
  intros Hs Hrej.
  destruct (slice_setup_Returned _ _ _ _ _ _ _ _ Hs) as (_ & Hth & HS & HL).
  rewrite <- Hth, <- HS, <- HL in Hrej.
  cbv zeta. rewrite (elliptical_slice_soft _ _ _ _ _ _ _ _ _ _ _ Hs Hrej).
  now cbn.
Qed.

(** C10: with [cur_log_like = None], when the loop body runs [max_iter]
    times and no proposal is on the slice, the returned log-likelihood is
    [None], although the slice threshold was computed from the
    log-likelihood of the state before the update. *)
Theorem elliptical_slice_exhausted_None
    prior variance angle_range max_iter b rng s w1 bk rng2 :
  slice_setup prior None variance angle_range (b, rng) = (Returned s, w1) ->
  rejections (b_xx b) (s_nu s) (b_S b) (b_L b) variance (s_hh s)
             (Z.to_nat max_iter) (s_phi s, s_phi_min s, s_phi_max s)
             (snd w1) bk rng2 ->
  fst (elliptical_slice prior None variance angle_range max_iter (b, rng))
  = Returned None
  /\ exists u, s_hh s = fadd (fmul (f_lit (1 # 1000)) (flog u))
                             (log_lik_frob (b_S b) (b_V b) variance).
Proof.
  intros Hs Hrej.
  destruct (slice_setup_Returned _ _ _ _ _ _ _ _ Hs) as (_ & Hth & HS & HL).
  rewrite <- Hth, <- HS, <- HL in Hrej.
  rewrite (elliptical_slice_soft _ _ _ _ _ _ _ _ _ _ _ Hs Hrej).
  split; [reflexivity |].
  destruct (slice_setup_inv _ _ _ _ _ _ _ _ Hs)
    as (v & p & N & rng1 & u & g & _ & _ & _ & Hhh & _).
  now exists u.
Qed.

(** C4: when, after [k < max_iter] rejected proposals, the proposal at the
    angle 0 is not on the slice either, the call raises the [RuntimeError];
    the bundle is as it was before the call, and the outcome is not a
    return (which is how running out of iterations ends). *)
Theorem elliptical_slice_shrunk_to_zero
    prior cur_log_like variance angle_range max_iter b rng s w1 k
    phi_min phi_max rng2 pr :
  flt f_zero f_zero = false ->
  slice_setup prior cur_log_like variance angle_range (b, rng)
    = (Returned s, w1) ->
  rejections (b_xx b) (s_nu s) (b_S b) (b_L b) variance (s_hh s)
             k (s_phi s, s_phi_min s, s_phi_max s)
             (snd w1) (f_zero, phi_min, phi_max) rng2 ->
  k < Z.to_nat max_iter ->
  propose (b_xx b) (s_nu s) (b_S b) (b_L b) variance f_zero = Returned pr ->
  fgt (p_ll pr) (s_hh s) = false ->
  let r := elliptical_slice prior cur_log_like variance angle_range max_iter
                            (b, rng) in
  r = (Raised (RuntimeError shrunk_msg), (b, rng2))
  /\ b_xx (fst (snd r)) = b_xx b
  /\ forall ll, fst r <> Returned ll.
Proof.
  intros Hz Hs Hrej Hk Hpr Hll.
  destruct (slice_setup_Returned _ _ _ _ _ _ _ _ Hs) as (Hb & Hth & HS & HL).
  destruct w1 as [b1 rng1]. cbn in Hb. subst b1.
  assert (E : elliptical_slice prior cur_log_like variance angle_range
                               max_iter (b, rng)
              = (Raised (RuntimeError shrunk_msg), (b, rng2))).
  { unfold elliptical_slice. rewrite (bind_Returned _ _ _ _ _ Hs).
    rewrite Hth, HS, HL.
    replace (Z.to_nat max_iter) with (k + S (Z.to_nat max_iter - S k)) by lia.
    pose proof (slice_loop_rejections _ _ _ _ _ _ _ _ _ _ _ Hrej
                  (S (Z.to_nat max_iter - S k)) 0 b) as E.
    cbn [fst snd] in E.
    erewrite bind_Raised; [reflexivity |].
    rewrite E. now apply slice_loop_zero with (pr := pr). }
  cbv zeta. rewrite E. cbn. repeat split. discriminate.
Qed.

(** C8: with [angle_range <= 0] and at least one iteration allowed, when the
    first proposed point [real(xx*cos(phi) + nu*sin(phi))] has a
    log-likelihood above the threshold, the loop breaks in its first
    iteration (index 0) with the bracket [phi - 2*pi, phi] it started
    with and without a further draw, and the call writes that point, its
    cross-products and its covariance field into the bundle and returns
    its log-likelihood. *)
Theorem elliptical_slice_first_proposal
    prior cur_log_like variance angle_range max_iter b rng s w1 pr :
  fle angle_range f_zero = true ->
  (0 < max_iter)%Z ->
  slice_setup prior cur_log_like variance angle_range (b, rng)
    = (Returned s, w1) ->
  propose (b_xx b) (s_nu s) (b_S b) (b_L b) variance (s_phi s)
    = Returned pr ->
  fgt (p_ll pr) (s_hh s) = true ->
  (exists u, s_phi s = fmul (fmul u f_two) f_pi)
  /\ s_phi_min s = fsub (s_phi s) (fmul f_two f_pi)
  /\ s_phi_max s = s_phi s
  /\ slice_loop (b_xx b) (s_nu s) (b_S b) (b_L b) variance (s_hh s)
                (Z.to_nat max_iter) 0 (s_phi s) (s_phi_min s) (s_phi_max s)
                w1
     = (Returned (Break 0 (s_phi s) (s_phi_min s) (s_phi_max s) pr), w1)
  /\ elliptical_slice prior cur_log_like variance angle_range max_iter
                      (b, rng)
     = (Returned (Some (p_ll pr)),
        (mk_Bundle (p_xx pr) (p_uut pr) (p_V pr) (b_S b) (b_L b), snd w1))
  /\ (exists a,
        np_add (np_scale (b_xx b) (fcos (s_phi s)))
               (np_scale (s_nu s) (fsin (s_phi s))) = Returned a
        /\ p_xx pr = np_real a)
  /\ p_uut pr = cross_products (p_xx pr)
  /\ p_V pr = GWP_construct (p_xx pr) (b_L b) (Some (p_uut pr)).
Proof.
  intros Hle Hpos Hs Hpr Hacc.
  destruct (slice_setup_Returned _ _ _ _ _ _ _ _ Hs) as (Hb & Hth & HS & HL).
  destruct (slice_setup_inv _ _ _ _ _ _ _ _ Hs)
    as (v & p & N & rng1 & u & g & _ & _ & _ & _ & Hbr).
  unfold initial_bracket in Hbr. rewrite Hle in Hbr.
  apply bind_inv_Returned in Hbr as (u' & w' & _ & Hbr).
  injection Hbr as Hphi Hmin Hmax _.
  destruct (Z.to_nat max_iter) as [| n] eqn:Hn; [lia |].
  pose proof (slice_loop_accept (b_xx b) (s_nu s) (b_S b) (b_L b) variance
                (s_hh s) n 0 (s_phi s) (s_phi_min s) (s_phi_max s) pr w1
                Hpr Hacc) as Hloop.
  split; [now exists u' |].
  split; [now rewrite <- Hmin, Hphi |].
  split; [now rewrite <- Hmax |].
  split; [exact Hloop |].
  split.
  { unfold elliptical_slice. rewrite (bind_Returned _ _ _ _ _ Hs).
    rewrite Hth, HS, HL, Hn. rewrite (bind_Returned _ _ _ _ _ Hloop).
    destruct w1 as [b1 rng1']. cbn in Hb. subst b1.
    unfold commit, mbind, M_bind, modify_store, mret, M_ret. now cbn. }
  unfold propose in Hpr.
  destruct (np_add (np_scale (b_xx b) (fcos (s_phi s)))
                   (np_scale (s_nu s) (fsin (s_phi s)))) as [a | e];
    [| discriminate].
  cbn in Hpr. injection Hpr as <-. cbn. eauto.
Qed.

(** C9: whatever the call does, the observed tensor [S] and the factor [L]
    of the bundle are afterwards what they were before.  Either the whole
    bundle is as before (the call raised, or ran out of iterations), or
    the loop ended by [break] at a proposal on the slice and the fields
    [xx], [uut] and [V] hold that proposal. *)
Theorem elliptical_slice_frame
    prior cur_log_like variance angle_range max_iter b rng :
  let r := elliptical_slice prior cur_log_like variance angle_range max_iter
                            (b, rng) in
  b_S (fst (snd r)) = b_S b
  /\ b_L (fst (snd r)) = b_L b
  /\ (fst (snd r) = b
      \/ exists s w1 it phi phi_min phi_max pr,
          slice_setup prior cur_log_like variance angle_range (b, rng)
            = (Returned s, w1)
          /\ slice_loop (b_xx b) (s_nu s) (b_S b) (b_L b) variance (s_hh s)
                        (Z.to_nat max_iter) 0 (s_phi s) (s_phi_min s)
                        (s_phi_max s) w1
             = (Returned (Break it phi phi_min phi_max pr), (b, snd (snd r)))
          /\ propose (b_xx b) (s_nu s) (b_S b) (b_L b) variance phi
             = Returned pr
          /\ fgt (p_ll pr) (s_hh s) = true
          /\ fst r = Returned (Some (p_ll pr))
          /\ fst (snd r)
             = mk_Bundle (p_xx pr) (p_uut pr) (p_V pr) (b_S b) (b_L b)).
Proof.
  intros r.
  pose proof (elliptical_slice_cases prior cur_log_like variance angle_range
                                     max_iter b rng) as C.
  cbv zeta in C. fold r in C.
  assert (HSL : b_S (fst (snd r)) = b_S b /\ b_L (fst (snd r)) = b_L b).
  { destruct C as [-> | (s & w1 & it & phi & pmin & pmax & pr & C)]; [easy |].
    destruct C as (_ & _ & _ & _ & _ & ->). now cbn. }
  destruct HSL as [HS HL]. auto.
Qed.
End SliceClaims.

(** ** The shape of the latent tensor *)

Lemma broadcast_rev_same (s : list nat) : broadcast_rev s s = Some s.
Proof.
  induction s as [| d r IH]; [reflexivity |].
  cbn. now rewrite IH, Nat.eqb_refl.
Qed.

Lemma broadcast_shapes_same (s : list nat) : broadcast_shapes s s = Some s.
Proof.
  unfold broadcast_shapes. now rewrite broadcast_rev_same, rev_involutive.
Qed.

Section SliceShapes.
Context {R G : Type} `{Scalar R} `{RandomState R G} `{Collaborators R}.

Lemma propose_shape initial_theta nu Sobs L variance phi pr :
  propose initial_theta nu Sobs L variance phi = Returned pr ->
  broadcast_shapes (shape initial_theta) (shape nu) = Some (shape (p_xx pr)).
Proof.
  unfold propose, np_add, np_binop. cbn [np_scale shape].
  destruct (broadcast_shapes (shape initial_theta) (shape nu)) as [s |];
    [| discriminate].
  cbn. now intros [= <-].
Qed.

Lemma propose_mismatch initial_theta nu Sobs L variance phi :
  broadcast_shapes (shape initial_theta) (shape nu) = None ->
  propose initial_theta nu Sobs L variance phi
  = Raised (ValueError broadcast_msg).
Proof.
  intros E. unfold propose, np_add, np_binop. cbn [np_scale shape].
  now rewrite E.
Qed.

Lemma slice_loop_propose_Raised {St} initial_theta nu Sobs L variance hh
      n it phi phi_min phi_max e (w : St * Rng R G) :
  propose initial_theta nu Sobs L variance phi = Raised e ->
  slice_loop initial_theta nu Sobs L variance hh (S n) it
             phi phi_min phi_max w
  = (Raised e, w).
Proof.
  intros E. cbn [slice_loop]. unfold mbind, M_bind, lift. now rewrite E.
Qed.

(** The ellipse is either the prior itself, when it has [D] elements, or
    has the shape of the latent tensor. *)
Lemma choose_nu_Returned {St} prior initial_theta v p N nu
      (w w' : St * Rng R G) :
  shape initial_theta = [v; p; N] ->
  choose_nu prior initial_theta (v * p * N) w = (Returned nu, w') ->
  (np_size prior = v * p * N /\ nu = prior)
  \/ (np_size prior <> v * p * N /\ shape nu = shape initial_theta).
Proof.
  intros Hshape. unfold choose_nu.
  destruct (Nat.eqb_spec (np_size prior) (v * p * N)) as [E | E].
  - intros [= <- _]. now left.
  - destruct (decide (shape prior ≠ [v * p * N; v * p * N]));
      [discriminate |].
    intros E'. right. split; [exact E |].
    apply bind_inv_Returned in E' as (z & w1 & _ & E').
    unfold lift, np_reshape in E'.
    destruct (np_size _ =? shape_size _); [| discriminate].
    now injection E' as <- _.
Qed.

(** With a prior of [D] elements the setup always succeeds, and the
    ellipse is the prior as it was given. *)
Lemma slice_setup_sample prior cur_log_like variance angle_range b rng v p N :
  shape (b_xx b) = [v; p; N] ->
  np_size prior = v * p * N ->
  exists s rng1,
    slice_setup prior cur_log_like variance angle_range (b, rng)
    = (Returned s, (b, rng1))
    /\ s_nu s = prior.
Proof.
  intros Hshape Hsize.
  unfold slice_setup.
  unfold mbind at 1, M_bind at 1, get_store at 1. cbn [fst snd].
  unfold mbind at 1, M_bind at 1, lift at 1. rewrite Hshape. cbn [unpack3].
  unfold mbind at 1, M_bind at 1, choose_nu at 1.
  rewrite Hsize, Nat.eqb_refl. cbn [mret M_ret].
  unfold mbind at 1, M_bind at 1, random_uniform at 1. cbn [fst snd].
  destruct (rs_uniform (gen rng)) as [u g].
  unfold initial_bracket.
  destruct (fle angle_range f_zero);
    unfold mbind, M_bind, random_uniform; cbn [fst snd gen draws];
    repeat match goal with
           | |- context [rs_uniform ?x] => destruct (rs_uniform x)
           end; cbn; eauto.
Qed.

(** C2 (what the code does, where it departs from the claim): a prior
    sample with [D] elements whose shape does not broadcast against the
    shape (v, p, N) of the latent tensor makes the call raise numpy's
    broadcasting [ValueError] in the first iteration instead of returning a
    state; the bundle is left as it was. *)
Theorem elliptical_slice_flat_prior_raises
    prior cur_log_like variance angle_range max_iter b rng v p N :
  shape (b_xx b) = [v; p; N] ->
  np_size prior = v * p * N ->
  broadcast_shapes [v; p; N] (shape prior) = None ->
  (0 < max_iter)%Z ->
  exists rng',
    elliptical_slice prior cur_log_like variance angle_range max_iter (b, rng)
    = (Raised (ValueError broadcast_msg), (b, rng')).
Proof.
  intros Hshape Hsize Hbc Hpos.
  destruct (slice_setup_sample prior cur_log_like variance angle_range b rng
                               v p N Hshape Hsize) as (s & rng1 & Hs & Hnu).
  destruct (slice_setup_Returned _ _ _ _ _ _ _ _ Hs) as (_ & Hth & HS & HL).
  exists rng1. unfold elliptical_slice.
  rewrite (bind_Returned _ _ _ _ _ Hs).
  destruct (Z.to_nat max_iter) as [| n] eqn:Hn; [lia |].
  erewrite bind_Raised; [reflexivity |].
  apply slice_loop_propose_Raised, propose_mismatch.
  now rewrite Hth, Hnu, Hshape.
Qed.

(** When the call returns, the latent tensor has its old shape, or the
    shape that broadcasting the old shape against the ellipse gives. *)
Lemma elliptical_slice_returned_shape
      prior cur_log_like variance angle_range max_iter b rng ll b' rng' :
  elliptical_slice prior cur_log_like variance angle_range max_iter (b, rng)
  = (Returned ll, (b', rng')) ->
  shape (b_xx b') = shape (b_xx b)
  \/ exists s w1,
      slice_setup prior cur_log_like variance angle_range (b, rng)
      = (Returned s, w1)
      /\ broadcast_shapes (shape (b_xx b)) (shape (s_nu s))
         = Some (shape (b_xx b')).
Proof.
  intros E.
  pose proof (elliptical_slice_cases prior cur_log_like variance angle_range
                                     max_iter b rng) as C.
  cbv zeta in C. rewrite E in C. cbn [fst snd] in C.
  destruct C as [-> | (s & w1 & it & phi & pmin & pmax & pr & C)];
    [now left |].
  destruct C as (Hs & _ & Hpr & _ & _ & ->). right. exists s, w1.
  split; [exact Hs |]. cbn. now apply propose_shape in Hpr.
Qed.

(** A prior sample with the shape of the latent tensor, and a prior that is
    not a sample (then it is the D-by-D factor, or the call raises), give
    back a latent tensor of the shape it had. *)
Lemma elliptical_slice_same_shape
      prior cur_log_like variance angle_range max_iter b rng v p N ll b' rng' :
  shape (b_xx b) = [v; p; N] ->
  shape prior = [v; p; N] \/ np_size prior <> v * p * N ->
  elliptical_slice prior cur_log_like variance angle_range max_iter (b, rng)
  = (Returned ll, (b', rng')) ->
  shape (b_xx b') = shape (b_xx b).
Proof.
  intros Hshape Hprior E.
  destruct (elliptical_slice_returned_shape _ _ _ _ _ _ _ _ _ _ E)
    as [-> | (s & w1 & Hs & Hbc)]; [reflexivity |].
  destruct (slice_setup_inv _ _ _ _ _ _ _ _ Hs)
    as (v' & p' & N' & rng1 & u & g & Hshape' & Hnu & _).
  rewrite Hshape in Hshape'. injection Hshape' as <- <- <-.
  apply (choose_nu_Returned _ _ _ _ _ _ _ _ Hshape) in Hnu.
  assert (Hsh : shape (s_nu s) = shape (b_xx b)).
  { destruct Hnu as [[Hsize ->] | [_ Hsh]]; [| exact Hsh].
    destruct Hprior as [-> | Hne]; [now rewrite Hshape | contradiction]. }
  rewrite Hsh, broadcast_shapes_same in Hbc. now injection Hbc as <-.
Qed.
End SliceShapes.

(** ** The claims on concrete inputs *)

Module SliceExamples.
Import Rational Example.

Ltac run := vm_compute; reflexivity.

Ltac reject_step :=
  eapply rejections_S; [run | run | run | run |].

Lemma elliptical_slice_invalid_prior_witness :
  elliptical_slice prior_3 (Some 0%Q) 1%Q 0%Q 20%Z
                   (world bundle_112 [1 # 2; 1 # 2]%Q)
  = (Raised (ValueError prior_shape_msg),
     world bundle_112 [1 # 2; 1 # 2]%Q).
Proof.
  apply (elliptical_slice_invalid_prior prior_3 (Some 0%Q) 1%Q 0%Q 20%Z
           bundle_112 (mk_Rng [1 # 2; 1 # 2]%Q []) 1 1 2).
  - reflexivity.
  - vm_compute. lia.
  - vm_compute. discriminate.
Defined.

(** C1 as stated fails: the latent tensor has shape (1, 1, 2), so D = 2;
    the prior has shape (1, 1, 2), which is neither (2,) nor (2, 2); the
    call does not raise, it draws twice and returns. *)
Lemma elliptical_slice_prior_shape_counterexample :
  shape (b_xx bundle_112) = [1; 1; 2]
  /\ shape prior_112 <> [2]
  /\ shape prior_112 <> [2; 2]
  /\ fst (elliptical_slice prior_112 (Some (-1)%Q) 1%Q 0%Q 20%Z
                           (world bundle_112 [1 # 2; 0]%Q))
     = Returned (Some 0%Q)
  /\ draws (snd (snd (elliptical_slice prior_112 (Some (-1)%Q) 1%Q 0%Q 20%Z
                                       (world bundle_112 [1 # 2; 0]%Q))))
     = [DrawUniform; DrawUniform].
Proof.
  split; [reflexivity |]. split; [discriminate |]. split; [discriminate |].
  split; run.
Qed.

Lemma elliptical_slice_exhausted_witness :
  let r := elliptical_slice prior_112 (Some 1000%Q) 1%Q 0%Q 2%Z
             (world bundle_112 [1 # 2; 1 # 2; 1 # 4; 1 # 8]%Q) in
  fst r = Returned (Some 1000%Q)
  /\ b_xx (fst (snd r)) = b_xx bundle_112
  /\ fst (snd r) = bundle_112
  /\ snd (snd r)
     = mk_Rng [] [DrawUniform; DrawUniform; DrawUniform; DrawUniform].
Proof.
  eapply elliptical_slice_exhausted.
  - run.
  - reject_step. reject_step. apply rejections_0.
Defined.

Lemma elliptical_slice_exhausted_None_witness :
  fst (elliptical_slice prior_112 None 1%Q 0%Q 2%Z
         (world bundle_112 [1 # 2; 1 # 2; 1 # 4; 1 # 8]%Q))
  = Returned None
  /\ exists u, (-1 # 2000)%Q
               = fadd (fmul (f_lit (1 # 1000)) (flog u))
                      (log_lik_frob (b_S bundle_112) (b_V bundle_112) 1%Q).
Proof.
  eapply (elliptical_slice_exhausted_None prior_112 1%Q 0%Q 2%Z bundle_112
            (mk_Rng [1 # 2; 1 # 2; 1 # 4; 1 # 8]%Q [])
            (mk_Setup _ _ _ _ (-1 # 2000)%Q _ _ _)).
  - run.
  - reject_step. reject_step. apply rejections_0.
Defined.

Lemma elliptical_slice_shrunk_to_zero_witness :
  let r := elliptical_slice prior_112 (Some 1000%Q) 1%Q 0%Q 2%Z
             (world bundle_112 [1 # 2; 0; 1 # 4]%Q) in
  r = (Raised (RuntimeError shrunk_msg),
       (bundle_112, mk_Rng [1 # 4]%Q [DrawUniform; DrawUniform]))
  /\ b_xx (fst (snd r)) = b_xx bundle_112
  /\ forall ll, fst r <> Returned ll.
Proof.
  eapply (elliptical_slice_shrunk_to_zero prior_112 (Some 1000%Q) 1%Q 0%Q 2%Z
            bundle_112 (mk_Rng [1 # 2; 0; 1 # 4]%Q []) _ _ 0).
  - reflexivity.
  - run.
  - apply rejections_0.
  - vm_compute. lia.
  - run.
  - run.
Defined.

Lemma elliptical_slice_first_proposal_witness :
  elliptical_slice prior_112 (Some (-1)%Q) 1%Q 0%Q 20%Z
                   (world bundle_112 [1 # 2; 0]%Q)
  = (Returned (Some 0%Q),
     (mk_Bundle (arr [1; 1; 2] [1; 2]%Q) (arr [2; 1; 1] [1; 4]%Q)
                (arr [2; 1; 1] [1; 4]%Q) (b_S bundle_112) (b_L bundle_112),
      mk_Rng [] [DrawUniform; DrawUniform])).
Proof.
  refine (proj1 (proj2 (proj2 (proj2 (proj2
    (elliptical_slice_first_proposal prior_112 (Some (-1)%Q) 1%Q 0%Q 20%Z
       bundle_112 (mk_Rng [1 # 2; 0]%Q [])
       (mk_Setup (b_xx bundle_112) (b_S bundle_112) (b_L bundle_112)
                 prior_112 (-2001 # 2000)%Q 0%Q (-710 # 113)%Q 0%Q)
       (bundle_112, mk_Rng [] [DrawUniform; DrawUniform])
       (mk_Proposal (arr [1; 1; 2] [1; 2]%Q) (arr [2; 1; 1] [1; 4]%Q)
                    (arr [2; 1; 1] [1; 4]%Q) 0%Q)
       _ _ _ _ _)))))).
  - reflexivity.
  - lia.
  - run.
  - run.
  - reflexivity.
Defined.

Lemma elliptical_slice_flat_prior_raises_witness :
  exists rng',
    elliptical_slice prior_12 (Some 0%Q) 1%Q 0%Q 20%Z
                     (world bundle_223 [1 # 2; 1 # 2]%Q)
    = (Raised (ValueError broadcast_msg), (bundle_223, rng')).
Proof.
  apply (elliptical_slice_flat_prior_raises prior_12 (Some 0%Q) 1%Q 0%Q 20%Z
           bundle_223 (mk_Rng [1 # 2; 1 # 2]%Q []) 2 2 3).
  - reflexivity.
  - reflexivity.
  - reflexivity.
  - lia.
Defined.

(** A flat prior sample that does broadcast: the latent tensor has shape
    (2, 1, 1) and the prior shape (2,); the accepted point has shape
    (2, 1, 2). *)
Example elliptical_slice_flat_prior_reshapes :
  shape (b_xx (fst (snd
    (elliptical_slice (arr [2] [3; 4]%Q) (Some (-1)%Q) 1%Q 0%Q 20%Z
       (world (mk_Bundle (arr [2; 1; 1] [1; 2]%Q) (arr [1; 1; 1] [5%Q])
                         (arr [1; 1; 1] [5%Q]) (arr [1; 1; 1] [5%Q])
                         (arr [1; 1] [1%Q]))
              [1 # 2; 0]%Q)))))
  = [2; 1; 2].
Proof. run. Qed.
End SliceExamples.

(** ** sample_hyper_kernel *)

Section HyperKernelClaims.
Context {R G : Type} `{Scalar R} `{RandomState R G} `{Collaborators R}.

(** C5: for a strictly positive [initial_theta] (and a posterior that
    evaluates at the current and at the proposed value),
    [sample_hyper_kernel] draws a log-normal proposal, which is strictly
    positive, and then a uniform variate; it returns [(sample, accept)]
    where [accept] is the test that the uniform variate is below
    [min(1, exp(logpost(proposal) - logpost(current)) * q(current |
    proposal) / q(proposal | current))], [sample] is the proposal when
    [accept] is true and [initial_theta] otherwise (so, when the two differ,
    [sample] is the proposal only if [accept] is true), and [sample] is
    strictly positive. *)
Theorem sample_hyper_kernel_step
    initial_theta var_proposal t u kern mean_prior var_prior rng
    mu sigma proposal g1 mu' sigma' logpzast logpztau draw g2 :
  flt f_zero initial_theta = true ->
  lognstat initial_theta var_proposal = (mu, sigma) ->
  rs_lognormal mu sigma (gen rng) = (proposal, g1) ->
  flt f_zero proposal = true ->
  logpunorm proposal t u kern mean_prior var_prior = Returned logpzast ->
  lognstat proposal var_proposal = (mu', sigma') ->
  logpunorm initial_theta t u kern mean_prior var_prior = Returned logpztau ->
  rs_uniform g1 = (draw, g2) ->
  let q_forward := lognormal_pdf proposal mu sigma in
  let q_reverse := lognormal_pdf initial_theta mu' sigma' in
  let ratio := py_min f_one (fmul (fexp (fsub logpzast logpztau))
                                  (fdiv q_reverse q_forward)) in
  exists sample accept,
    sample_hyper_kernel initial_theta var_proposal t u kern
                        mean_prior var_prior (tt, rng)
    = (Returned (sample, accept),
       (tt, mk_Rng g2 (draws rng ++ [DrawLognormal mu sigma; DrawUniform])))
    /\ flt f_zero sample = true
    /\ accept = flt draw ratio
    /\ (accept = true -> sample = proposal)
    /\ (accept = false -> sample = initial_theta)
    /\ (proposal <> initial_theta -> sample = proposal -> accept = true).
Proof.
  intros Hpos Hstat Hdraw Hprop Hz Hstat' Ht Hu q_forward q_reverse ratio.
  exists (if flt draw ratio then proposal else initial_theta),
         (flt draw ratio).
  split.
  - unfold sample_hyper_kernel. rewrite Hstat.
    unfold mbind, M_bind, random_lognormal, random_uniform, lift.
    cbn [fst snd gen draws]. rewrite Hdraw, Hz, Hstat', Ht.
    cbn [fst snd gen draws]. rewrite Hu. cbn [mret M_ret].
    rewrite <- app_assoc. reflexivity.
  - split; [now destruct (flt draw ratio) |].
    split; [reflexivity |].
    split; [intros ->; reflexivity |].
    split; [intros ->; reflexivity |].
    intros Hne. destruct (flt draw ratio); [reflexivity |].
    intros E. now symmetry in E.
Qed.
End HyperKernelClaims.

Module HyperKernelExamples.
Import Rational Example.

Lemma sample_hyper_kernel_step_witness :
  exists sample accept,
    sample_hyper_kernel 1%Q 1%Q (arr [1] [0%Q]) (arr [1; 1; 1] [1%Q]) kern1
                        1%Q 1%Q (world tt [1 # 2; 1 # 3]%Q)
    = (Returned (sample, accept),
       (tt, mk_Rng [] [DrawLognormal 0%Q 1%Q; DrawUniform]))
    /\ flt f_zero sample = true
    /\ accept = true
    /\ (accept = true -> sample = (3 # 2)%Q)
    /\ (accept = false -> sample = 1%Q)
    /\ ((3 # 2)%Q <> 1%Q -> sample = (3 # 2)%Q -> accept = true).
Proof.
  refine (sample_hyper_kernel_step 1%Q 1%Q (arr [1] [0%Q])
            (arr [1; 1; 1] [1%Q]) kern1 1%Q 1%Q
            (mk_Rng [1 # 2; 1 # 3]%Q [])
            0%Q 1%Q (3 # 2)%Q [(1 # 3)%Q] (1 # 2)%Q 1%Q
            (-4761 # 904)%Q (-1049 # 226)%Q (1 # 3)%Q [] _ _ _ _ _ _ _ _);
    vm_compute; reflexivity.
Defined.
End HyperKernelExamples.

(** ** _sample_ell_comp over the real numbers *)

Section SymmetricProposal.
Import Real.
Context {G : Type} `{RandomState R G} `{Collaborators R}.

Lemma norm_pdf_swap (x m s : R) : norm_pdf x m s = norm_pdf m x s.
Proof.
  unfold norm_pdf, fsquare. cbn. f_equal. f_equal. f_equal.
  unfold Rdiv. ring.
Qed.

Lemma norm_pdf_pos (x m s : R) : (0 < s)%R -> (0 < norm_pdf x m s)%R.
Proof.
  intros Hs. unfold norm_pdf. cbn.
  apply Rdiv_lt_0_compat; [apply exp_pos |].
  apply Rmult_lt_0_compat; [| exact Hs].
  apply sqrt_lt_R0. apply Rmult_lt_0_compat; [| apply PI_RGT_0].
  unfold f_two. cbn. rewrite <- (RMicromega.Q2R_0).
  apply Qreals.Qlt_Rlt. reflexivity.
Qed.

Lemma f_one_real : f_one = 1%R.
Proof. unfold f_one. cbn. apply RMicromega.Q2R_1. Qed.

Lemma norm_pdf_ratio (x m s : R) :
  (0 < s)%R -> fdiv (norm_pdf x m s) (norm_pdf m x s) = f_one.
Proof.
  intros Hs. rewrite f_one_real, (norm_pdf_swap x m s). cbn.
  apply Rdiv_diag. apply Rgt_not_eq, Rlt_gt, norm_pdf_pos, Hs.
Qed.

(** C7: over the real numbers and for a positive proposal variance, the
    correction factor [q_tau_ast / q_ast_tau] that [_sample_ell_comp]
    computes from the two normal densities is 1, the acceptance
    probability it uses is [min(1, exp(logpLast - logpLtau))], and the
    step is the step with the symmetric-proposal ratio. *)
Theorem sample_ell_comp_correction_is_one
    Ltaug i sigma2Lprop Sobs umat var_err mu_prior var_prior uut
    (w : unit * Rng R G) :
  (0 < sigma2Lprop)%R ->
  (forall Ltau Last,
      fdiv (norm_pdf Ltau Last (fsqrt sigma2Lprop))
           (norm_pdf Last Ltau (fsqrt sigma2Lprop)) = 1%R)
  /\ (forall Ltau Last logpLast logpLtau,
         ell_acceptance logpLast logpLtau
           (norm_pdf Ltau Last (fsqrt sigma2Lprop))
           (norm_pdf Last Ltau (fsqrt sigma2Lprop))
         = py_min f_one (fexp (fsub logpLast logpLtau)))
  /\ _sample_ell_comp Ltaug i sigma2Lprop Sobs umat var_err
                      mu_prior var_prior uut w
     = sample_ell_comp_symmetric Ltaug i sigma2Lprop Sobs umat var_err
                                 mu_prior var_prior uut w.
Proof.
  intros Hvar.
  assert (Hs : (0 < fsqrt sigma2Lprop)%R) by (cbn; now apply sqrt_lt_R0).
  assert (Hratio : forall Ltau Last,
             fdiv (norm_pdf Ltau Last (fsqrt sigma2Lprop))
                  (norm_pdf Last Ltau (fsqrt sigma2Lprop)) = 1%R).
  { intros Ltau Last. rewrite <- f_one_real. now apply norm_pdf_ratio. }
  assert (Hacc : forall Ltau Last logpLast logpLtau,
             ell_acceptance logpLast logpLtau
               (norm_pdf Ltau Last (fsqrt sigma2Lprop))
               (norm_pdf Last Ltau (fsqrt sigma2Lprop))
             = py_min f_one (fexp (fsub logpLast logpLtau))).
  { intros Ltau Last a b. unfold ell_acceptance. rewrite Hratio.
    f_equal. cbn. ring. }
  split; [exact Hratio |]. split; [exact Hacc |].
  unfold _sample_ell_comp, sample_ell_comp_symmetric, symmetric_acceptance.
  unfold mbind, M_bind.
  destruct (lift (py_index Ltaug i) w) as [[Ltau | e] w1]; [| reflexivity].
  destruct (random_normal Ltau (fsqrt sigma2Lprop) w1) as [[Last | e] w2];
    [| reflexivity].
  destruct (lift (logp_ell_posterior (<[i:=Last]> Ltaug) i Sobs umat var_err
                                     mu_prior var_prior uut) w2)
    as [[logpLast | e] w3]; [| reflexivity].
  destruct (lift (logp_ell_posterior Ltaug i Sobs umat var_err mu_prior
                                     var_prior uut) w3)
    as [[logpLtau | e] w4]; [| reflexivity].
  now rewrite Hacc.
Qed.
End SymmetricProposal.

Module SymmetricProposalExample.
Import Real RealExample.

Lemma sample_ell_comp_correction_is_one_witness :
  fdiv (norm_pdf 0%R 1%R (fsqrt 4%R)) (norm_pdf 1%R 0%R (fsqrt 4%R)) = 1%R.
Proof.
  refine (proj1 (sample_ell_comp_correction_is_one
                   [0%R] 0 4%R flat flat 1%R 0%R 1%R None
                   (tt, mk_Rng tt []) _) 0%R 1%R).
  lra.
Defined.
End SymmetricProposalExample.

(** ** sample_L2 *)

Section CholeskyClaims.
Context {R G : Type} `{Scalar R} `{RandomState R G} `{Collaborators R}.

Lemma py_index_lt {A} (l : list A) i :
  i < length l -> exists x, py_index l i = Returned x.
Proof.
  intros Hi. unfold py_index.
  destruct (lookup_lt_is_Some_2 l i Hi) as [x ->]. eauto.
Qed.

Lemma py_index_middle {A} (l1 l2 : list A) x :
  py_index (l1 ++ x :: l2) (length l1) = Returned x.
Proof. unfold py_index. now rewrite list_lookup_middle. Qed.

(** The posterior of one element evaluates on a vector that fills the
    lower triangle. *)
Lemma logp_ell_posterior_Returned Lv i Sobs umat var_err mu_prior var_prior
      uut n m :
  ellipsis_0_shape (shape Sobs) = Returned [n; m] ->
  length Lv = tril_count n m ->
  i < length Lv ->
  exists x, logp_ell_posterior Lv i Sobs umat var_err mu_prior var_prior uut
            = Returned x.
Proof.
  intros HS Hlen Hi. unfold logp_ell_posterior. rewrite HS.
  cbn [mbind Outcome_bind]. unfold tril_from.
  rewrite Hlen, Nat.eqb_refl. cbn [mbind Outcome_bind].
  destruct (py_index_lt Lv i Hi) as [x ->]. cbn. eauto.
Qed.

(** One step returns on such a vector. *)
Lemma sample_ell_comp_Returned Ltaug i sigma2Lprop Sobs umat var_err
      mu_prior var_prior uut n m rng :
  ellipsis_0_shape (shape Sobs) = Returned [n; m] ->
  length Ltaug = tril_count n m ->
  i < length Ltaug ->
  exists x rng',
    _sample_ell_comp Ltaug i sigma2Lprop Sobs umat var_err
                     mu_prior var_prior uut (tt, rng)
    = (Returned x, (tt, rng')).
Proof.
  intros HS Hlen Hi. unfold _sample_ell_comp.
  destruct (py_index_lt Ltaug i Hi) as [Ltau HLtau].
  unfold mbind, M_bind, lift, random_normal, random_uniform.
  rewrite HLtau. cbn [fst snd gen draws].
  destruct (rs_normal Ltau (fsqrt sigma2Lprop) (gen rng)) as [Last g1].
  destruct (logp_ell_posterior_Returned (<[i:=Last]> Ltaug) i Sobs umat
              var_err mu_prior var_prior uut n m HS)
    as [a ->]; [now rewrite length_insert | now rewrite length_insert |].
  destruct (logp_ell_posterior_Returned Ltaug i Sobs umat
              var_err mu_prior var_prior uut n m HS Hlen Hi) as [b ->].
  cbn [fst snd gen draws].
  destruct (rs_uniform g1) as [u g2]. cbn. eauto.
Qed.

Lemma frame_eq {St A} (m : @M R G unit A) (st : St) rng o rng' :
  m (tt, rng) = (o, (tt, rng')) -> frame m (st, rng) = (o, (st, rng')).
Proof. intros E. unfold frame. cbn [fst snd]. now rewrite E. Qed.

(** The loop of [sample_L2], started at index [length done] on the array
    [done ++ todo], does what the sweep of the specification does; every
    new value is written into the array. *)
Lemma sample_L2_loop_sweep var_proposal Sobs umat var_err mu_prior var_prior
      uut todo :
  forall done zs rng r rng',
    length zs = length todo ->
    sweep_spec done todo var_proposal Sobs umat var_err mu_prior var_prior
               uut (tt, rng) = (Returned r, (tt, rng')) ->
    sample_L2_loop (seq (length done) (length todo)) (done ++ zs)
                   var_proposal Sobs umat var_err mu_prior var_prior uut
                   (done ++ todo, rng)
    = (Returned r, (r, rng')).
Proof.
  induction todo as [| old rest IH]; intros done zs rng r rng' Hlen E.
  - destruct zs; [| discriminate]. cbn in E. injection E as <- <-.
    now rewrite app_nil_r.
  - destruct zs as [| z zs]; [discriminate |]. injection Hlen as Hlen.
    cbn [length seq sample_L2_loop]. cbn [sweep_spec] in E.
    apply bind_inv_Returned in E as (vp & w1 & E1 & E).
    apply bind_inv_Returned in E as (mp & w2 & E2 & E).
    apply bind_inv_Returned in E as (vpr & w3 & E3 & E).
    apply bind_inv_Returned in E as (x & [[] rng1] & E4 & E).
    unfold lift in E1, E2, E3.
    injection E1 as E1 <-. injection E2 as E2 <-. injection E3 as E3 <-.
    unfold mbind at 1, M_bind at 1, get_store at 1. cbn [fst snd].
    unfold mbind at 1, M_bind at 1, lift at 1. rewrite E1.
    unfold mbind at 1, M_bind at 1, lift at 1. rewrite E2.
    unfold mbind at 1, M_bind at 1, lift at 1. rewrite E3.
    unfold mbind at 1, M_bind at 1.
    rewrite (frame_eq _ _ _ _ _ E4).
    rewrite insert_app_r_alt by lia. rewrite Nat.sub_diag.
    cbn [insert list_insert].
    unfold mbind at 1, M_bind at 1, lift at 1.
    rewrite py_index_middle.
    unfold mbind at 1, M_bind at 1, modify_store at 1. cbn [fst snd].
    rewrite insert_app_r_alt by lia. rewrite Nat.sub_diag.
    cbn [insert list_insert].
    specialize (IH (done ++ [x]) zs rng1 r rng' Hlen E).
    rewrite length_app in IH. cbn [length] in IH.
    rewrite Nat.add_1_r in IH. rewrite <- !app_assoc in IH. exact IH.
Qed.

(** The sweep of the specification returns, with one value per element,
    when the vector fills the lower triangle and the per-element
    parameters are long enough. *)
Lemma sweep_spec_Returned var_proposal Sobs umat var_err mu_prior var_prior
      uut n m todo :
  ellipsis_0_shape (shape Sobs) = Returned [n; m] ->
  forall done rng,
    length done + length todo = tril_count n m ->
    length done + length todo <= length var_proposal ->
    length done + length todo <= length mu_prior ->
    length done + length todo <= length var_prior ->
    exists r rng',
      sweep_spec done todo var_proposal Sobs umat var_err mu_prior var_prior
                 uut (tt, rng) = (Returned r, (tt, rng'))
      /\ length r = length done + length todo.
Proof.
  intros HS. induction todo as [| old rest IH];
    intros done rng Hlen Hvp Hmp Hvpr.
  - exists done, rng. cbn. split; [reflexivity | lia].
  - cbn [length] in *. cbn [sweep_spec].
    destruct (py_index_lt var_proposal (length done)) as [vp Evp]; [lia |].
    destruct (py_index_lt mu_prior (length done)) as [mp Emp]; [lia |].
    destruct (py_index_lt var_prior (length done)) as [vpr Evpr]; [lia |].
    destruct (sample_ell_comp_Returned (done ++ old :: rest) (length done)
                vp Sobs umat var_err mp vpr uut n m rng HS)
      as (x & rng1 & Ex).
    { rewrite length_app. cbn [length]. lia. }
    { rewrite length_app. cbn [length]. lia. }
    destruct (IH (done ++ [x]) rng1) as (r & rng' & Er & Hr);
      try (rewrite length_app; cbn [length]; lia).
    exists r, rng'. split.
    + unfold mbind at 1, M_bind at 1, lift at 1. rewrite Evp.
      unfold mbind at 1, M_bind at 1, lift at 1. rewrite Emp.
      unfold mbind at 1, M_bind at 1, lift at 1. rewrite Evpr.
      unfold mbind at 1, M_bind at 1. rewrite Ex. exact Er.
    + rewrite Hr, length_app. cbn [length]. lia.
Qed.

(** C6: on a vector [Ltau] that fills the lower triangle of the matrix the
    observed tensor gives, with per-element parameters for every element,
    [sample_L2] returns a vector of the length of [Ltau]; the returned
    vector is the one the sequential sweep gives, where the step for an
    element runs on the vector in which the earlier elements already have
    their new values; and [Ltau] itself holds these values afterwards. *)
Theorem sample_L2_sequential
    var_proposal Sobs umat var_err mu_prior var_prior uut Ltau rng n m :
  ellipsis_0_shape (shape Sobs) = Returned [n; m] ->
  length Ltau = tril_count n m ->
  length Ltau <= length var_proposal ->
  length Ltau <= length mu_prior ->
  length Ltau <= length var_prior ->
  exists L_proposal rng',
    sample_L2 var_proposal Sobs umat var_err mu_prior var_prior uut
              (Ltau, rng)
    = (Returned L_proposal, (L_proposal, rng'))
    /\ length L_proposal = length Ltau
    /\ sweep_spec [] Ltau var_proposal Sobs umat var_err mu_prior var_prior
                  uut (tt, rng)
       = (Returned L_proposal, (tt, rng')).
Proof.
  intros HS Hlen Hvp Hmp Hvpr.
  destruct (sweep_spec_Returned var_proposal Sobs umat var_err mu_prior
              var_prior uut n m Ltau HS [] rng) as (r & rng' & Er & Hr);
    cbn [length]; try lia.
  exists r, rng'. split; [| split; [exact Hr | exact Er]].
  unfold sample_L2.
  unfold mbind, M_bind, get_store. cbn [fst snd].
  apply (sample_L2_loop_sweep var_proposal Sobs umat var_err mu_prior
           var_prior uut Ltau [] (repeat f_zero (length Ltau)) rng r rng').
  - apply repeat_length.
  - exact Er.
Qed.
End CholeskyClaims.

Module CholeskyExamples.
Import Rational Example.

Lemma sample_L2_sequential_witness :
  exists L_proposal rng',
    sample_L2 [1; 1; 1]%Q (arr [2; 2; 1] [1; 0; 0; 1]%Q)
              (arr [1; 2; 1] [1; 1]%Q) 1%Q [0; 0; 0]%Q [1; 1; 1]%Q None
              (world [1; 2; 3]%Q [1 # 2; 1 # 3; 1 # 4; 1 # 5; 1 # 6; 1 # 7]%Q)
    = (Returned L_proposal, (L_proposal, rng'))
    /\ length L_proposal = 3
    /\ sweep_spec [] [1; 2; 3]%Q [1; 1; 1]%Q (arr [2; 2; 1] [1; 0; 0; 1]%Q)
                  (arr [1; 2; 1] [1; 1]%Q) 1%Q [0; 0; 0]%Q [1; 1; 1]%Q None
                  (world tt [1 # 2; 1 # 3; 1 # 4; 1 # 5; 1 # 6; 1 # 7]%Q)
       = (Returned L_proposal, (tt, rng')).
Proof.
  apply (sample_L2_sequential [1; 1; 1]%Q (arr [2; 2; 1] [1; 0; 0; 1]%Q)
           (arr [1; 2; 1] [1; 1]%Q) 1%Q [0; 0; 0]%Q [1; 1; 1]%Q None
           [1; 2; 3]%Q
           (mk_Rng [1 # 2; 1 # 3; 1 # 4; 1 # 5; 1 # 6; 1 # 7]%Q []) 2 2).
  - reflexivity.
  - reflexivity.
  - cbn. lia.
  - cbn. lia.
  - cbn. lia.
Defined.

(** A sweep on [1; 0; 0]: the first element's step gives 0, and the second
    element's step, which runs on [0; 0; 0], accepts its proposal 1/2. *)
Example sample_L2_values :
  sample_L2 [1; 1; 1]%Q (arr [2; 2; 1] [1; 0; 0; 1]%Q)
            (arr [1; 2; 1] [1; 1]%Q) 1%Q [0; 0; 0]%Q [1; 1; 1]%Q None
            (world [1; 0; 0]%Q [-1; 1 # 2; 1 # 2; 1 # 2; 0; 1 # 2]%Q)
  = (Returned [0; 1 # 2; 0]%Q,
     ([0; 1 # 2; 0]%Q,
      mk_Rng [] [DrawNormal 1%Q 1%Q; DrawUniform; DrawNormal 0%Q 1%Q;
                 DrawUniform; DrawNormal 0%Q 1%Q; DrawUniform])).
Proof. vm_compute. reflexivity. Qed.

(** The same step for the second element, with the same variates, rejects
    the proposal when it runs on the array before the first element's
    update: the sweep is not a batched update. *)
Example sample_ell_comp_sees_update :
  fst (_sample_ell_comp [0; 0; 0]%Q 1 1%Q (arr [2; 2; 1] [1; 0; 0; 1]%Q)
         (arr [1; 2; 1] [1; 1]%Q) 1%Q 0%Q 1%Q None
         (world tt [1 # 2; 1 # 2]%Q))
  = Returned (1 # 2)%Q
  /\ fst (_sample_ell_comp [1; 0; 0]%Q 1 1%Q (arr [2; 2; 1] [1; 0; 0; 1]%Q)
            (arr [1; 2; 1] [1; 1]%Q) 1%Q 0%Q 1%Q None
            (world tt [1 # 2; 1 # 2]%Q))
     = Returned 0%Q.
Proof. split; vm_compute; reflexivity. Qed.
End CholeskyExamples.

(** * Further properties of the samplers *)

(** ** elliptical_slice: errors and draws *)

Section SliceErrors.
Context {R G : Type} `{Scalar R} `{RandomState R G} `{Collaborators R}.


Lemma repeat_snoc {A} (x : A) n : repeat x n ++ [x] = repeat x (S n).
Proof. induction n as [| n IH]; [reflexivity |]. cbn. now rewrite IH. Qed.

(** [np.random.normal(size=n)] gives [n] values and logs [n] standard
    normal draws. *)
Lemma random_normal_size_spec {St} n (st : St) (rng : Rng R G) :
  exists zs g,
    random_normal_size n (st, rng)
    = (Returned zs,
       (st, mk_Rng g (draws rng ++ repeat (DrawNormal f_zero f_one) n)))
    /\ length zs = n.
Proof.
  revert rng. induction n as [| n IH]; intros rng.
  - exists [], (gen rng). cbn. rewrite app_nil_r. now destruct rng.
  - cbn [random_normal_size].
    unfold mbind at 1, M_bind at 1, random_normal at 1. cbn [fst snd].
    destruct (rs_normal f_zero f_one (gen rng)) as [z g1].
    destruct (IH (mk_Rng g1 (draws rng ++ [DrawNormal f_zero f_one])))
      as (zs & g & E & Hlen).
    exists (z :: zs), g. unfold mbind, M_bind. rewrite E. cbn.
    rewrite <- app_assoc. cbn. split; [reflexivity | now rewrite Hlen].
Qed.

Lemma shape_size_3 v p N : shape_size [v; p; N] = v * p * N.
Proof. cbn. lia. Qed.

(** X1: a latent tensor that does not have three axes makes the call raise
    a [ValueError] when its shape is unpacked: nothing has been drawn and
    the bundle is untouched. *)
Theorem elliptical_slice_not_rank3
    prior cur_log_like variance angle_range max_iter b rng :
  ~ rank3 (shape (b_xx b)) ->
  exists msg,
    elliptical_slice prior cur_log_like variance angle_range max_iter (b, rng)
    = (Raised (ValueError msg), (b, rng)).
Proof.
  intros Hrank. unfold elliptical_slice, slice_setup.
  unfold mbind at 1, M_bind at 1.
  unfold mbind at 1, M_bind at 1, get_store at 1. cbn [fst snd].
  unfold mbind at 1, M_bind at 1, lift at 1, unpack3.
  destruct (shape (b_xx b)) as [| a [| a' [| a'' [| ? ?]]]] eqn:E;
    try (eexists; reflexivity).
  exfalso. apply Hrank. now exists a, a', a''.
Qed.

(** X2: with a D-by-D prior and D >= 2, the setup draws exactly D standard
    normal variates before the uniform ones, and the ellipse [nu] it builds
    has the shape of the latent tensor. *)
Theorem slice_setup_cholesky
    prior cur_log_like variance angle_range b rng v p N :
  shape (b_xx b) = [v; p; N] ->
  shape prior = [v * p * N; v * p * N] ->
  1 < v * p * N ->
  exists s rng1 k,
    slice_setup prior cur_log_like variance angle_range (b, rng)
    = (Returned s, (b, rng1))
    /\ shape (s_nu s) = [v; p; N]
    /\ draws rng1
       = draws rng ++ repeat (DrawNormal f_zero f_one) (v * p * N)
                   ++ repeat DrawUniform k
    /\ (k = 2 \/ k = 3).
Proof.
  intros Hshape Hprior HD.
  unfold slice_setup.
  unfold mbind at 1, M_bind at 1, get_store at 1. cbn [fst snd].
  unfold mbind at 1, M_bind at 1, lift at 1. rewrite Hshape. cbn [unpack3].
  unfold mbind at 1, M_bind at 1, choose_nu at 1.
  destruct (Nat.eqb_spec (np_size prior) (v * p * N)) as [E | _].
  { unfold np_size in E. rewrite Hprior in E. cbn in E. nia. }
  destruct (decide (shape prior ≠ [v * p * N; v * p * N])) as [E | _];
    [contradiction |].
  destruct (random_normal_size_spec (v * p * N) b rng) as (zs & g & Ez & Hz).
  unfold mbind at 1, M_bind at 1. rewrite Ez.
  unfold lift at 1, np_reshape, np_size. cbn [np_dot_T shape].
  rewrite Hshape, shape_size_3.
  replace (shape_size [v * p * N]) with (v * p * N) by (cbn; lia).
  rewrite Nat.eqb_refl.
  unfold mbind at 1, M_bind at 1, random_uniform at 1.
  cbn [fst snd gen draws].
  destruct (rs_uniform g) as [u g1].
  unfold initial_bracket.
  destruct (fle angle_range f_zero);
    unfold mbind, M_bind, random_uniform; cbn [fst snd gen draws];
    repeat match goal with
           | |- context [rs_uniform ?x] => destruct (rs_uniform x)
           end; cbn [fst snd gen draws mret M_ret].
  - eexists _, _, 2. split; [reflexivity |]. split; [reflexivity |].
    split; [| now left]. cbn. now rewrite <- !app_assoc.
  - eexists _, _, 3. split; [reflexivity |]. split; [reflexivity |].
    split; [| now right]. cbn. now rewrite <- !app_assoc.
Qed.



End SliceErrors.

(** ** elliptical_slice: the loop and the cached fields *)

Section SliceLoopFacts.
Context {R G : Type} `{Scalar R} `{RandomState R G} `{Collaborators R}.

(** The loop draws uniform variates only, at most one for each iteration. *)
Lemma slice_loop_draws_le {St} initial_theta nu Sobs L variance hh n :
  forall it phi phi_min phi_max (w w' : St * Rng R G) o,
    slice_loop initial_theta nu Sobs L variance hh n it phi phi_min phi_max w
    = (o, w') ->
    exists k, k <= n /\ draws (snd w') = draws (snd w) ++ repeat DrawUniform k.
Proof.
  induction n as [| n IH]; intros it phi phi_min phi_max w w' o E.
  - cbn in E. injection E as _ <-. exists 0. cbn. now rewrite app_nil_r.
  - cbn [slice_loop] in E.
    assert (Hstop : forall o0, (o0, w) = (o, w') ->
              exists k,
              k <= S n
              /\ draws (snd w') = draws (snd w) ++ repeat DrawUniform k).
    { intros o0 [= _ <-]. exists 0. cbn. rewrite app_nil_r.
      split; [lia | reflexivity]. }
    unfold mbind at 1, M_bind at 1, lift at 1 in E.
    destruct (propose initial_theta nu Sobs L variance phi) as [pr | e];
      [| now apply Hstop in E].
    destruct (fgt (p_ll pr) hh); [now apply Hstop in E |].
    unfold mbind at 1, M_bind at 1, lift at 1 in E.
    destruct (shrink phi phi_min phi_max) as [[pmin pmax] | e];
      [| now apply Hstop in E].
    unfold mbind at 1, M_bind at 1, random_uniform at 1 in E.
    destruct (rs_uniform (gen (snd w))) as [u g].
    apply IH in E as (k & Hk & Hd). cbn [snd draws] in Hd.
    exists (S k). split; [lia |]. rewrite Hd, <- app_assoc. reflexivity.
Qed.

(** X4: the loop draws one uniform variate for each rejected proposal and
    nothing else: when it breaks at index [i], it has drawn [i] variates and
    [i < n]; when it runs out of iterations it has drawn [n]; when it
    raises, fewer than [n]. *)
Theorem slice_loop_draws {St} initial_theta nu Sobs L variance hh n
    it phi phi_min phi_max (st st' : St) (rng rng' : Rng R G) o :
  slice_loop initial_theta nu Sobs L variance hh n it phi phi_min phi_max
             (st, rng) = (o, (st', rng')) ->
  exists k,
    draws rng' = draws rng ++ repeat DrawUniform k
    /\ match o with
       | Returned (Break i _ _ _ _) => i = it + k /\ k < n
       | Returned Exhausted => k = n
       | Raised _ => k < n
       end.
Proof.
  revert it phi phi_min phi_max st st' rng rng' o.
  induction n as [| n IH]; intros it phi phi_min phi_max st st' rng rng' o E.
  - cbn in E. injection E as <- <- <-. exists 0. cbn.
    now rewrite app_nil_r.
  - cbn [slice_loop] in E. unfold mbind at 1, M_bind at 1, lift at 1 in E.
    destruct (propose initial_theta nu Sobs L variance phi) as [pr | e].
    2:{ injection E as <- <- <-. exists 0. cbn. rewrite app_nil_r.
        split; [reflexivity | lia]. }
    destruct (fgt (p_ll pr) hh).
    { injection E as <- <- <-. exists 0. cbn. rewrite app_nil_r.
      split; [reflexivity | lia]. }
    unfold mbind at 1, M_bind at 1, lift at 1 in E.
    destruct (shrink phi phi_min phi_max) as [[pmin pmax] | e].
    2:{ injection E as <- <- <-. exists 0. cbn. rewrite app_nil_r.
        split; [reflexivity | lia]. }
    unfold mbind at 1, M_bind at 1, random_uniform at 1 in E.
    cbn [fst snd] in E. destruct (rs_uniform (gen rng)) as [u g].
    apply IH in E as (k & Hd & Ho). cbn [draws] in Hd.
    exists (S k). split.
    + rewrite Hd, <- app_assoc. reflexivity.
    + destruct o as [[i ? ? ? ? |] | e]; lia.
Qed.

(** The setup with a prior sample draws two or three uniform variates. *)
Lemma slice_setup_sample_draws
      prior cur_log_like variance angle_range b rng v p N :
  shape (b_xx b) = [v; p; N] ->
  np_size prior = v * p * N ->
  exists s rng1 k,
    slice_setup prior cur_log_like variance angle_range (b, rng)
    = (Returned s, (b, rng1))
    /\ draws rng1 = draws rng ++ repeat DrawUniform k
    /\ (k = 2 \/ k = 3).
Proof.
  intros Hshape Hsize.
  unfold slice_setup.
  unfold mbind at 1, M_bind at 1, get_store at 1. cbn [fst snd].
  unfold mbind at 1, M_bind at 1, lift at 1. rewrite Hshape. cbn [unpack3].
  unfold mbind at 1, M_bind at 1, choose_nu at 1.
  rewrite Hsize, Nat.eqb_refl. cbn [mret M_ret].
  unfold mbind at 1, M_bind at 1, random_uniform at 1. cbn [fst snd].
  destruct (rs_uniform (gen rng)) as [u g].
  unfold initial_bracket.
  destruct (fle angle_range f_zero);
    unfold mbind, M_bind, random_uniform; cbn [fst snd gen draws];
    repeat match goal with
           | |- context [rs_uniform ?x] => destruct (rs_uniform x)
           end; cbn [fst snd gen draws mret M_ret].
  - eexists _, _, 2. split; [reflexivity |].
    split; [| now left]. cbn. now rewrite <- !app_assoc.
  - eexists _, _, 3. split; [reflexivity |].
    split; [| now right]. cbn. now rewrite <- !app_assoc.
Qed.

(** X5: with a prior sample of D elements, whatever the call does (return,
    broadcasting error, shrunk bracket), it has drawn only uniform variates:
    at least two and at most three plus the number of iterations allowed. *)
Theorem elliptical_slice_sample_draws
    prior cur_log_like variance angle_range max_iter b rng v p N :
  shape (b_xx b) = [v; p; N] ->
  np_size prior = v * p * N ->
  exists k,
    draws (snd (snd (elliptical_slice prior cur_log_like variance angle_range
                                      max_iter (b, rng))))
    = draws rng ++ repeat DrawUniform k
    /\ 2 <= k <= 3 + Z.to_nat max_iter.
Proof.
  intros Hshape Hsize.
  destruct (slice_setup_sample_draws prior cur_log_like variance angle_range
              b rng v p N Hshape Hsize) as (s & rng1 & k0 & Hs & Hd0 & Hk0).
  unfold elliptical_slice. rewrite (bind_Returned _ _ _ _ _ Hs).
  destruct (slice_loop (s_initial_theta s) (s_nu s) (s_S s) (s_L s) variance
              (s_hh s) (Z.to_nat max_iter) 0 (s_phi s) (s_phi_min s)
              (s_phi_max s) (b, rng1)) as [o [b2 rng2]] eqn:Hl.
  destruct (slice_loop_draws_le _ _ _ _ _ _ _ _ _ _ _ _ _ _ Hl)
    as (k & Hk & Hd). cbn [snd] in Hd.
  exists (k0 + k). split.
  - assert (Hfinal : draws rng2 = draws rng ++ repeat DrawUniform (k0 + k)).
    { rewrite Hd, Hd0, <- app_assoc. f_equal. symmetry. apply repeat_app. }
    destruct o as [exit | e].
    + rewrite (bind_Returned _ _ _ _ _ Hl).
      destruct exit; unfold commit, mbind, M_bind, modify_store, mret, M_ret;
        cbn [fst snd]; exact Hfinal.
    + rewrite (bind_Raised _ _ _ _ _ Hl). exact Hfinal.
  - lia.
Qed.

(** X6: whatever the call does, a bundle whose cached fields [uut] and [V]
    are the ones derived from its latent tensor and its factor is still
    such a bundle afterwards. *)
Theorem elliptical_slice_consistent
    prior cur_log_like variance angle_range max_iter b rng :
  consistent b ->
  consistent (fst (snd (elliptical_slice prior cur_log_like variance
                                         angle_range max_iter (b, rng)))).
Proof.
  intros Hb.
  pose proof (elliptical_slice_cases prior cur_log_like variance angle_range
                                     max_iter b rng) as C.
  cbv zeta in C.
  destruct C as [-> | (s & w1 & it & phi & pmin & pmax & pr & C)];
    [exact Hb |].
  destruct C as (_ & _ & Hpr & _ & _ & ->).
  unfold propose in Hpr.
  destruct (np_add _ _) as [a | e]; [| discriminate].
  cbn in Hpr. injection Hpr as <-. now split.
Qed.

(** X7: when the call returns, either the bundle is the one it was given and
    the returned log-likelihood is the [cur_log_like] argument, or the
    returned log-likelihood is the one of the covariance field now in the
    bundle, which is derived from the latent tensor now in the bundle. *)
Theorem elliptical_slice_returned
    prior cur_log_like variance angle_range max_iter b rng ll b' rng' :
  elliptical_slice prior cur_log_like variance angle_range max_iter (b, rng)
  = (Returned ll, (b', rng')) ->
  (b' = b /\ ll = cur_log_like)
  \/ (consistent b'
      /\ ll = Some (log_lik_frob (b_S b') (b_V b') variance)).
Proof.
  intros E. unfold elliptical_slice in E.
  apply bind_inv_Returned in E as (s & [b1 rng1] & Hs & E).
  destruct (slice_setup_Returned _ _ _ _ _ _ _ _ Hs) as (Hb & Hth & HS & HL).
  cbn in Hb. subst b1.
  apply bind_inv_Returned in E as (exit & [b2 rng2] & Hl & E).
  pose proof (keeps_slice_loop (s_initial_theta s) (s_nu s) (s_S s) (s_L s)
                variance (s_hh s) (Z.to_nat max_iter) 0 (s_phi s)
                (s_phi_min s) (s_phi_max s) (b, rng1)) as K.
  rewrite Hl in K. cbn in K. subst b2.
  destruct exit as [it phi pmin pmax pr |].
  - right.
    destruct (slice_loop_Break _ _ _ _ _ _ _ _ _ _ _ _ _ _ _ _ _ _ Hl)
      as [Hpr _].
    unfold commit, mbind, M_bind, modify_store, mret, M_ret in E.
    cbn in E. injection E as <- <- <-.
    unfold propose in Hpr.
    destruct (np_add _ _) as [a | e]; [| discriminate].
    cbn in Hpr. injection Hpr as <-. cbn. rewrite HS, HL.
    split; [now split | reflexivity].
  - left.
    unfold commit, mbind, M_bind, modify_store, mret, M_ret in E.
    cbn in E. injection E as <- <- <-. rewrite Hth.
    split; [apply set_xx_same | reflexivity].
Qed.

(** X8: with [max_iter <= 0] and a prior the setup accepts, no point is
    proposed: the call returns the [cur_log_like] argument and leaves the
    bundle as it was, but the variates of the setup have been drawn. *)
Theorem elliptical_slice_no_iterations
    prior cur_log_like variance angle_range max_iter b rng s w1 :
  (max_iter <= 0)%Z ->
  slice_setup prior cur_log_like variance angle_range (b, rng)
  = (Returned s, w1) ->
  elliptical_slice prior cur_log_like variance angle_range max_iter (b, rng)
  = (Returned cur_log_like, (b, snd w1))
  /\ length (draws rng) + 2 <= length (draws (snd w1)).
Proof.
  intros Hle Hs. split.
  - apply (elliptical_slice_soft prior cur_log_like variance angle_range
             max_iter b rng s w1 (s_phi s, s_phi_min s, s_phi_max s)).
    + exact Hs.
    + replace (Z.to_nat max_iter) with 0 by lia. apply rejections_0.
  - destruct (slice_setup_inv _ _ _ _ _ _ _ _ Hs)
      as (v & p & N & rng1 & u & g & _ & Hnu & _ & _ & Hbr).
    assert (Hlen : length (draws rng) <= length (draws rng1)).
    { unfold choose_nu in Hnu.
      destruct (np_size prior =? v * p * N).
      - injection Hnu as _ <-. lia.
      - destruct (decide _); [discriminate |].
        destruct (random_normal_size_spec (v * p * N) b rng)
          as (zs & g' & Ez & _).
        apply bind_inv_Returned in Hnu as (z & w2 & Ez' & Hnu).
        rewrite Ez in Ez'. injection Ez' as <- <-.
        unfold lift in Hnu. injection Hnu as _ <-.
        cbn. rewrite length_app. lia. }
    unfold initial_bracket in Hbr.
    destruct (fle angle_range f_zero);
      unfold mbind, M_bind, random_uniform in Hbr;
      cbn [fst snd gen draws] in Hbr;
      repeat match type of Hbr with
             | context [rs_uniform ?x] => destruct (rs_uniform x)
             end;
      cbn [fst snd gen draws mret M_ret] in Hbr;
      injection Hbr as _ _ _ <-; cbn [snd draws];
      rewrite !length_app; cbn [length]; lia.
Qed.

(** X9: for a prior sample that has the shape of the latent tensor, and for
    a D-by-D prior with D >= 2, whenever the call returns, the latent tensor
    in the bundle has the shape it had before. *)
Theorem elliptical_slice_keeps_shape
    prior cur_log_like variance angle_range max_iter b rng v p N ll b' rng' :
  shape (b_xx b) = [v; p; N] ->
  shape prior = [v; p; N]
  \/ (shape prior = [v * p * N; v * p * N] /\ 1 < v * p * N) ->
  elliptical_slice prior cur_log_like variance angle_range max_iter (b, rng)
  = (Returned ll, (b', rng')) ->
  shape (b_xx b') = [v; p; N].
Proof.
  intros Hshape Hprior E. rewrite <- Hshape.
  apply (elliptical_slice_same_shape prior cur_log_like variance angle_range
           max_iter b rng v p N ll b' rng' Hshape); [| exact E].
  destruct Hprior as [Hp | [Hp HD]]; [now left | right].
  unfold np_size. rewrite Hp. cbn. nia.
Qed.
End SliceLoopFacts.

Module SliceMoreExamples.
Import Rational Example.

Ltac run := vm_compute; reflexivity.

Lemma elliptical_slice_not_rank3_witness :
  exists msg,
    elliptical_slice prior_3 (Some 0%Q) 1%Q 0%Q 20%Z
      (world (mk_Bundle (arr [3] [1; 2; 3]%Q) (arr [] []) (arr [] [])
                        (arr [] []) (arr [1; 1] [1%Q]))
             [1 # 2]%Q)
    = (Raised (ValueError msg),
       world (mk_Bundle (arr [3] [1; 2; 3]%Q) (arr [] []) (arr [] [])
                        (arr [] []) (arr [1; 1] [1%Q]))
             [1 # 2]%Q).
Proof.
  apply (elliptical_slice_not_rank3 prior_3 (Some 0%Q) 1%Q 0%Q 20%Z
           (mk_Bundle (arr [3] [1; 2; 3]%Q) (arr [] []) (arr [] [])
                      (arr [] []) (arr [1; 1] [1%Q]))
           (mk_Rng [1 # 2]%Q [])).
  intros (v & p & N & E). discriminate E.
Defined.

Lemma slice_setup_cholesky_witness :
  exists s rng1 k,
    slice_setup (arr [2; 2] [1; 0; 0; 1]%Q) (Some 0%Q) 1%Q 0%Q
                (world bundle_112 [1; 2; 1 # 2; 1 # 4]%Q)
    = (Returned s, (bundle_112, rng1))
    /\ shape (s_nu s) = [1; 1; 2]
    /\ draws rng1
       = [] ++ repeat (DrawNormal f_zero f_one) (1 * 1 * 2)
            ++ repeat DrawUniform k
    /\ (k = 2 \/ k = 3).
Proof.
  apply (slice_setup_cholesky (arr [2; 2] [1; 0; 0; 1]%Q) (Some 0%Q) 1%Q 0%Q
           bundle_112 (mk_Rng [1; 2; 1 # 2; 1 # 4]%Q []) 1 1 2).
  - reflexivity.
  - reflexivity.
  - cbn. lia.
Defined.


Lemma slice_loop_draws_witness :
  exists k,
    [DrawUniform; DrawUniform; DrawUniform; DrawUniform]
    = [DrawUniform; DrawUniform] ++ repeat (@DrawUniform Q) k
    /\ k = 2.
Proof.
  apply (slice_loop_draws (b_xx bundle_112) prior_112 (b_S bundle_112)
           (b_L bundle_112) 1%Q (1999999 # 2000)%Q 2 0
           (355 # 113)%Q (-355 # 113)%Q (355 # 113)%Q
           bundle_112 bundle_112
           (mk_Rng [1 # 4; 1 # 8]%Q [DrawUniform; DrawUniform])
           (mk_Rng [] [DrawUniform; DrawUniform; DrawUniform; DrawUniform])
           (Returned Exhausted)).
  run.
Defined.

Lemma elliptical_slice_consistent_witness :
  consistent (fst (snd (elliptical_slice prior_112 (Some (-1)%Q) 1%Q 0%Q 20%Z
                          (world bundle_112 [1 # 2; 0]%Q)))).
Proof.
  apply elliptical_slice_consistent. split; run.
Defined.

Lemma elliptical_slice_returned_witness :
  (mk_Bundle (arr [1; 1; 2] [1; 2]%Q) (arr [2; 1; 1] [1; 4]%Q)
             (arr [2; 1; 1] [1; 4]%Q) (b_S bundle_112) (b_L bundle_112)
   = bundle_112 /\ Some 0%Q = Some (-1)%Q)
  \/ (consistent (mk_Bundle (arr [1; 1; 2] [1; 2]%Q) (arr [2; 1; 1] [1; 4]%Q)
                            (arr [2; 1; 1] [1; 4]%Q) (b_S bundle_112)
                            (b_L bundle_112))
      /\ Some 0%Q
         = Some (log_lik_frob (b_S bundle_112) (arr [2; 1; 1] [1; 4]%Q) 1%Q)).
Proof.
  apply (elliptical_slice_returned prior_112 (Some (-1)%Q) 1%Q 0%Q 20%Z
           bundle_112 (mk_Rng [1 # 2; 0]%Q []) (Some 0%Q)
           (mk_Bundle (arr [1; 1; 2] [1; 2]%Q) (arr [2; 1; 1] [1; 4]%Q)
                      (arr [2; 1; 1] [1; 4]%Q) (b_S bundle_112)
                      (b_L bundle_112))
           (mk_Rng [] [DrawUniform; DrawUniform])).
  run.
Defined.

Lemma elliptical_slice_no_iterations_witness :
  elliptical_slice prior_112 None 1%Q 0%Q 0%Z (world bundle_112 [1 # 2; 0]%Q)
  = (Returned None, (bundle_112, mk_Rng [] [DrawUniform; DrawUniform]))
  /\ 0 + 2 <= 2.
Proof.
  refine (elliptical_slice_no_iterations prior_112 None 1%Q 0%Q 0%Z
            bundle_112 (mk_Rng [1 # 2; 0]%Q [])
            (mk_Setup (b_xx bundle_112) (b_S bundle_112) (b_L bundle_112)
                      prior_112 (-1 # 2000)%Q 0%Q (-710 # 113)%Q 0%Q)
            (bundle_112, mk_Rng [] [DrawUniform; DrawUniform]) _ _).
  - lia.
  - run.
Defined.

Lemma elliptical_slice_keeps_shape_witness :
  shape (b_xx (mk_Bundle (arr [1; 1; 2] [1; 2]%Q) (arr [2; 1; 1] [1; 4]%Q)
                         (arr [2; 1; 1] [1; 4]%Q) (b_S bundle_112)
                         (b_L bundle_112)))
  = [1; 1; 2].
Proof.
  apply (elliptical_slice_keeps_shape prior_112 (Some (-1)%Q) 1%Q 0%Q 20%Z
           bundle_112 (mk_Rng [1 # 2; 0]%Q []) 1 1 2 (Some 0%Q) _
           (mk_Rng [] [DrawUniform; DrawUniform])).
  - reflexivity.
  - left. reflexivity.
  - run.
Defined.
End SliceMoreExamples.

(** ** elliptical_slice: the bracket of angles, over the real numbers *)

Section Bracket.
Import Real.
Context {G : Type} `{RandomState R G} `{Collaborators R}.

Lemma f_zero_real : f_zero = 0%R.
Proof. unfold f_zero. cbn. apply RMicromega.Q2R_0. Qed.

Lemma Q2R_2 : Q2R 2 = 2%R.
Proof. unfold Q2R. cbn. lra. Qed.

Lemma flt_real_true (x y : R) : flt x y = true -> (x < y)%R.
Proof. cbn. destruct (Rlt_dec x y); [trivial | discriminate]. Qed.

Lemma flt_real_false (x y : R) : flt x y = false -> (y <= x)%R.
Proof. cbn. destruct (Rlt_dec x y); [discriminate | lra]. Qed.

Lemma fle_real_true (x y : R) : fle x y = true -> (x <= y)%R.
Proof. cbn. destruct (Rle_dec x y); [trivial | discriminate]. Qed.

Lemma fle_real_false (x y : R) : fle x y = false -> (y < x)%R.
Proof. cbn. destruct (Rle_dec x y); [discriminate | lra]. Qed.

(** X10: when the uniform variates lie in [0, 1], the bracket the setup
    builds contains 0 (the angle of the current point) and the first
    proposed angle, for a non-positive [angle_range] (whole ellipse) as well
    as for a positive one. *)
Theorem initial_bracket_ok {St} angle_range (w w' : St * Rng R G) b :
  (forall g, 0 <= fst (rs_uniform g) <= 1)%R ->
  initial_bracket angle_range w = (Returned b, w') ->
  bracket_ok b.
Proof.
  intros Hu. unfold initial_bracket.
  destruct (fle angle_range f_zero) eqn:Hle.
  - unfold mbind, M_bind, random_uniform. cbn [fst snd].
    pose proof (Hu (gen (snd w))) as Hu1.
    destruct (rs_uniform (gen (snd w))) as [u g]. cbn [fst] in Hu1.
    intros E. inversion E. unfold bracket_ok. cbn. rewrite Q2R_2.
    pose proof PI_RGT_0. split; nra.
  - apply fle_real_false in Hle. rewrite f_zero_real in Hle.
    unfold mbind, M_bind, random_uniform. cbn [fst snd gen draws].
    pose proof (Hu (gen (snd w))) as Hu1.
    destruct (rs_uniform (gen (snd w))) as [u g]. cbn [fst] in Hu1.
    cbn [fst snd gen draws].
    pose proof (Hu g) as Hu2.
    destruct (rs_uniform g) as [u' g']. cbn [fst] in Hu2.
    intros E. inversion E. unfold bracket_ok. cbn. split; nra.
Qed.

(** X11: when the uniform variates lie in [0, 1], rejected proposals keep
    the bracket: after any number of them it still contains 0 and the angle
    proposed next, and it lies within the bracket before. *)
Theorem rejections_bracket_ok initial_theta nu Sobs L variance hh
        n b rng b' rng' :
  (forall g, 0 <= fst (rs_uniform g) <= 1)%R ->
  bracket_ok b ->
  rejections initial_theta nu Sobs L variance hh n b rng b' rng' ->
  bracket_ok b' /\ (b.1.2 <= b'.1.2)%R /\ (b'.2 <= b.2)%R.
Proof.
  intros Hu Hb Hrej.
  induction Hrej as [b rng | n phi phi_min phi_max rng pr phi_min1 phi_max1
                               u g b' rng' _ _ Hshr Hdraw _ IH].
  - split; [exact Hb | split; lra].
  - unfold bracket_ok in Hb. cbn [fst snd] in Hb.
    pose proof (Hu (gen rng)) as Hu1. rewrite Hdraw in Hu1. cbn [fst] in Hu1.
    unfold shrink, fgt in Hshr.
    assert (Hnew : (phi_min1 <= 0 <= phi_max1)%R
                   /\ (phi_min <= phi_min1)%R /\ (phi_max1 <= phi_max)%R).
    { destruct (flt f_zero phi) eqn:Hpos.
      - apply flt_real_true in Hpos. rewrite f_zero_real in Hpos.
        injection Hshr as <- <-. lra.
      - destruct (flt phi f_zero) eqn:Hneg; [| discriminate].
        apply flt_real_true in Hneg. rewrite f_zero_real in Hneg.
        injection Hshr as <- <-. lra. }
    destruct IH as (Hok & Hlo & Hhi).
    { unfold bracket_ok. cbn. split; [lra | nra]. }
    cbn [fst snd] in *. split; [exact Hok | lra].
Qed.
End Bracket.

Module BracketExample.
Import Real RealExample RealHalf.

Lemma half_in_unit : forall g : unit, (0 <= fst (rs_uniform g) <= 1)%R.
Proof. intros g. cbn. lra. Qed.

Lemma initial_bracket_ok_witness :
  bracket_ok (fmul (fmul (1 / 2)%R f_two) f_pi,
              fsub (fmul (fmul (1 / 2)%R f_two) f_pi) (fmul f_two f_pi),
              fmul (fmul (1 / 2)%R f_two) f_pi).
Proof.
  apply (initial_bracket_ok (St := unit) 0%R (tt, mk_Rng tt [])
           (tt, mk_Rng tt [DrawUniform])).
  - exact half_in_unit.
  - unfold initial_bracket.
    replace (fle 0%R f_zero) with true.
    + reflexivity.
    + symmetry. cbn. destruct (Rle_dec 0 (Q2R 0)) as [_ | n]; [reflexivity |].
      exfalso. apply n. rewrite RMicromega.Q2R_0. lra.
Defined.

Lemma rejections_bracket_ok_witness :
  bracket_ok (fadd (fmul (1 / 2)%R (fsub 1%R (-1)%R)) (-1)%R, (-1)%R, 1%R)
  /\ (-1 <= -1)%R /\ (1 <= 2)%R.
Proof.
  refine (rejections_bracket_ok flat flat flat flat 1%R 0%R 1
            (1%R, (-1)%R, 2%R) (mk_Rng tt [])
            (fadd (fmul (1 / 2)%R (fsub 1%R (-1)%R)) (-1)%R, (-1)%R, 1%R)
            (mk_Rng tt [DrawUniform]) half_in_unit _ _).
  - unfold bracket_ok. cbn. lra.
  - eapply (rejections_S flat flat flat flat 1%R 0%R 0 1%R (-1)%R 2%R
              (mk_Rng tt []) _ (-1)%R 1%R (1 / 2)%R tt).
    + reflexivity.
    + cbn. destruct (Rlt_dec 0 0) as [l | _]; [lra | reflexivity].
    + unfold shrink, fgt.
      replace (flt f_zero 1%R) with true; [reflexivity |].
      symmetry. cbn. destruct (Rlt_dec (Q2R 0) 1) as [_ | n]; [reflexivity |].
      exfalso. apply n. rewrite RMicromega.Q2R_0. lra.
    + reflexivity.
    + apply rejections_0.
Defined.
End BracketExample.

(** ** sample_hyper_kernel and logpunorm: errors and draws *)

Section HyperKernelFacts.
Context {R G : Type} `{Scalar R} `{RandomState R G} `{Collaborators R}.

(** X12: [logpunorm] evaluates exactly when the time vector [t] has at least
    one axis, the sample tensor has three axes, and the cross-product matrix
    broadcasts against the pseudo-inverse of the kernel matrix. *)
Theorem logpunorm_Returned_iff
    inverse_width t umat kern mean_prior var_prior :
  (exists x, logpunorm inverse_width t umat kern mean_prior var_prior
             = Returned x)
  <-> exists d r,
      shape t = d :: r
      /\ rank3 (shape umat)
      /\ broadcast_shapes
           (shape (tensordot_10 umat umat))
           (shape (pinvh (kern (mk_ndarray (d :: 1 :: r) (data t))
                               inverse_width)))
         <> None.
Proof.
  unfold logpunorm, np_new_axis1. split.
  - intros [x E]. destruct (shape t) as [| d r]; [discriminate |].
    exists d, r. split; [reflexivity |]. cbn [mbind Outcome_bind] in E.
    unfold unpack3 in E.
    destruct (shape umat) as [| v [| p [| n [| ? ?]]]]; try discriminate.
    split; [now exists v, p, n |].
    cbn [mbind Outcome_bind] in E. unfold np_mul, np_binop in E.
    destruct (broadcast_shapes _ _); [discriminate | discriminate E].
  - intros (d & r & -> & (v & p & n & ->) & Hbc).
    cbn [mbind Outcome_bind unpack3]. unfold np_mul, np_binop.
    destruct (broadcast_shapes _ _) as [s |]; [| contradiction].
    cbn [mbind Outcome_bind]. destruct (lognstat mean_prior var_prior).
    eauto.
Qed.

(** X13: [sample_hyper_kernel] always draws the log-normal proposal first,
    with the parameters [lognstat] gives for the current value; it draws
    the uniform variate only after the posterior has evaluated at both
    values, so a call that raises has consumed exactly one variate and a
    call that returns exactly two. *)
Theorem sample_hyper_kernel_draws
    initial_theta var_proposal t u kern mean_prior var_prior rng o rng' :
  sample_hyper_kernel initial_theta var_proposal t u kern mean_prior
                      var_prior (tt, rng) = (o, (tt, rng')) ->
  draws rng'
  = draws rng
    ++ DrawLognormal (fst (lognstat initial_theta var_proposal))
                     (snd (lognstat initial_theta var_proposal))
       :: match o with
          | Returned _ => [DrawUniform]
          | Raised _ => []
          end.
Proof.
  unfold sample_hyper_kernel.
  destruct (lognstat initial_theta var_proposal) as [mu sigma]. cbn [fst snd].
  unfold mbind at 1, M_bind at 1, random_lognormal at 1. cbn [fst snd].
  destruct (rs_lognormal mu sigma (gen rng)) as [proposal g1].
  unfold mbind at 1, M_bind at 1, lift at 1.
  destruct (logpunorm proposal t u kern mean_prior var_prior) as [lz | e].
  2:{ intros [= <- <-]. reflexivity. }
  destruct (lognstat proposal var_proposal) as [mu' sigma'].
  unfold mbind at 1, M_bind at 1, lift at 1.
  destruct (logpunorm initial_theta t u kern mean_prior var_prior)
    as [lt | e].
  2:{ intros [= <- <-]. reflexivity. }
  unfold mbind, M_bind, random_uniform. cbn [fst snd gen draws].
  destruct (rs_uniform g1) as [d g2]. cbn [mret M_ret].
  intros [= <- <-]. now rewrite <- app_assoc.
Qed.
End HyperKernelFacts.

Module HyperKernelMoreExamples.
Import Rational Example.

Lemma logpunorm_Returned_iff_witness :
  exists x, logpunorm (3 # 2)%Q (arr [1] [0%Q]) (arr [1; 1; 1] [1%Q]) kern1
                      1%Q 1%Q = Returned x.
Proof.
  apply (proj2 (logpunorm_Returned_iff (3 # 2)%Q (arr [1] [0%Q])
                  (arr [1; 1; 1] [1%Q]) kern1 1%Q 1%Q)).
  exists 1, []. split; [reflexivity |].
  split; [now exists 1, 1, 1 |]. vm_compute. discriminate.
Defined.

(** a sample tensor with two axes: the posterior raises after the proposal
    has been drawn *)
Lemma sample_hyper_kernel_draws_witness :
  [DrawLognormal 0%Q 1%Q]
  = [] ++ DrawLognormal (fst (lognstat 1%Q 1%Q)) (snd (lognstat 1%Q 1%Q))
          :: [].
Proof.
  apply (sample_hyper_kernel_draws 1%Q 1%Q (arr [1] [0%Q])
           (arr [1; 1] [1%Q]) kern1 1%Q 1%Q
           (mk_Rng [1 # 2; 1 # 3]%Q [])
           (Raised (ValueError (unpack_few_msg 2)))
           (mk_Rng [(1 # 3)%Q] [DrawLognormal 0%Q 1%Q])).
  vm_compute. reflexivity.
Defined.
End HyperKernelMoreExamples.

(** ** logp_ell_posterior: the factor it builds and when it evaluates *)

Lemma ellipsis_0_shape_spec (s r : list nat) :
  ellipsis_0_shape s = Returned r <-> exists N, s = r ++ [S N].
Proof.
  unfold ellipsis_0_shape. split.
  - intros E. destruct (rev s) as [| [| N] l] eqn:Hrev; try discriminate.
    injection E as <-. exists N.
    rewrite <- (rev_involutive s), Hrev. reflexivity.
  - intros [N ->]. rewrite rev_app_distr. cbn. now rewrite rev_involutive.
Qed.

(** The rows of the mask, one after the other. *)
Lemma tril_mask_S (n m : nat) :
  tril_mask (S n) m
  = tril_mask n m ++ map (fun j => bool_decide (j <= n)) (seq 0 m).
Proof.
  unfold tril_mask. rewrite seq_S, flat_map_app. cbn. now rewrite app_nil_r.
Qed.

Lemma tril_mask_length (n m : nat) : length (tril_mask n m) = n * m.
Proof.
  induction n as [| n IH]; [reflexivity |].
  rewrite tril_mask_S, length_app, IH, length_map, length_seq. lia.
Qed.

Lemma tril_mask_lookup (n m i j : nat) :
  i < n -> j < m -> tril_mask n m !! (i * m + j) = Some (bool_decide (j <= i)).
Proof.
  induction n as [| n IH]; intros Hi Hj; [lia |].
  rewrite tril_mask_S.
  destruct (decide (i < n)) as [Hlt | Hge].
  - rewrite lookup_app_l by (rewrite tril_mask_length; nia). now apply IH.
  - assert (i = n) by lia. subst i.
    rewrite lookup_app_r by (rewrite tril_mask_length; lia).
    rewrite tril_mask_length.
    replace (n * m + j - n * m) with j by lia.
    rewrite list_lookup_fmap, lookup_seq_lt by lia. reflexivity.
Qed.

Lemma count_row (i m : nat) :
  length (filter (fun b => b = true)
                 (map (fun j => bool_decide (j <= i)) (seq 0 m)))
  = Nat.min (S i) m.
Proof.
  induction m as [| m IH]; [reflexivity |].
  rewrite seq_S, map_app, filter_app, length_app, IH. cbn [map Nat.add].
  rewrite filter_cons, filter_nil.
  destruct (decide (bool_decide (m <= i) = true)) as [E | E].
  - apply bool_decide_eq_true in E. cbn [length]. lia.
  - rewrite bool_decide_eq_true in E. cbn [length]. lia.
Qed.

(** The lower triangle of a square matrix has p(p+1)/2 positions. *)
Lemma tril_count_le (n m : nat) : n <= m -> 2 * tril_count n m = n * (n + 1).
Proof.
  unfold tril_count. induction n as [| n IH]; intros Hle; [reflexivity |].
  rewrite tril_mask_S, filter_app, length_app, count_row.
  specialize (IH ltac:(lia)). nia.
Qed.

Section TrilFacts.
Context {R : Type} `{Scalar R}.

Lemma scatter_length (mask : list bool) (vals : list R) :
  length (scatter mask vals) = length mask.
Proof.
  revert vals. induction mask as [| [|] mk IH]; intros vals; cbn.
  - reflexivity.
  - destruct vals; cbn; now rewrite IH.
  - now rewrite IH.
Qed.

Lemma scatter_false (mask : list bool) (vals : list R) k :
  mask !! k = Some false -> scatter mask vals !! k = Some f_zero.
Proof.
  revert vals k. induction mask as [| b mk IH]; intros vals k Hk;
    [discriminate |].
  destruct k as [| k].
  - injection Hk as ->. reflexivity.
  - cbn in Hk. destruct b; cbn.
    + destruct vals; cbn; now apply IH.
    + now apply IH.
Qed.

Lemma gather_scatter (mask : list bool) (vals : list R) :
  length vals = length (filter (fun b => b = true) mask) ->
  gather mask (scatter mask vals) = vals.
Proof.
  revert vals. induction mask as [| [|] mk IH]; intros vals Hlen.
  - destruct vals; [reflexivity | discriminate].
  - rewrite filter_cons_True in Hlen by reflexivity.
    destruct vals as [| v vs]; [discriminate |].
    cbn. f_equal. apply IH. now injection Hlen.
  - rewrite filter_cons_False in Hlen by discriminate.
    cbn. now apply IH.
Qed.

(** X14: the matrix [logp_ell_posterior] builds from the vector of free
    elements has the shape of [S[..., 0]], holds one entry per position, and
    is zero above the diagonal. *)
Theorem tril_from_lower n m Lv L i j :
  tril_from [n; m] Lv = Returned L ->
  shape L = [n; m]
  /\ length (data L) = n * m
  /\ (i < n -> j < m -> i < j -> entry m (data L) i j = Some f_zero).
Proof.
  unfold tril_from. intros E.
  assert (Hd : exists vals,
             L = mk_ndarray [n; m] (scatter (tril_mask n m) vals)).
  { destruct (length Lv =? tril_count n m).
    - injection E as <-. eauto.
    - destruct Lv as [| v [| ? ?]]; try discriminate.
      injection E as <-. eauto. }
  destruct Hd as [vals ->]. cbn [shape data].
  split; [reflexivity |].
  split; [now rewrite scatter_length, tril_mask_length |].
  intros Hi Hj Hij. unfold entry. apply scatter_false.
  rewrite tril_mask_lookup by assumption.
  f_equal. apply bool_decide_eq_false. lia.
Qed.

(** X15: reading the lower triangle of the matrix built from a vector of free
    elements, row by row, gives the vector back. *)
Theorem tril_from_gather n m Lv L :
  length Lv = tril_count n m ->
  tril_from [n; m] Lv = Returned L ->
  gather (tril_mask n m) (data L) = Lv.
Proof.
  intros Hlen. unfold tril_from. rewrite Hlen, Nat.eqb_refl.
  intros [= <-]. cbn [data]. now apply gather_scatter.
Qed.
End TrilFacts.

Section PosteriorFacts.
Context {R G : Type} `{Scalar R} `{RandomState R G} `{Collaborators R}.

(** X16: [logp_ell_posterior] evaluates exactly when the observed tensor has
    three axes, the last one not empty, the vector has as many elements as
    the lower triangle of [S[..., 0]] has positions (or one element, which
    numpy broadcasts), and the index is within the vector. *)
Theorem logp_ell_posterior_Returned_iff
    Lv i Sobs umat var_err mu_prior var_prior uut :
  (exists x, logp_ell_posterior Lv i Sobs umat var_err mu_prior var_prior uut
             = Returned x)
  <-> exists n m N,
      shape Sobs = [n; m; S N]
      /\ (length Lv = tril_count n m \/ length Lv = 1)
      /\ i < length Lv.
Proof.
  unfold logp_ell_posterior. split.
  - intros [x E].
    destruct (ellipsis_0_shape (shape Sobs)) as [s0 | e] eqn:HS;
      [| discriminate].
    apply ellipsis_0_shape_spec in HS as [N HS].
    cbn [mbind Outcome_bind] in E.
    destruct (tril_from s0 Lv) as [L | e] eqn:HL; [| discriminate].
    cbn [mbind Outcome_bind] in E. unfold tril_from in HL.
    destruct s0 as [| n [| m [| ? ?]]]; try discriminate.
    exists n, m, N. split; [exact HS |]. split.
    + destruct (Nat.eqb_spec (length Lv) (tril_count n m)); [now left |].
      destruct Lv as [| v [| ? ?]]; try discriminate. now right.
    + unfold py_index in E. destruct (Lv !! i) eqn:Hi; [| discriminate].
      now apply lookup_lt_Some in Hi.
  - intros (n & m & N & HS & Hlen & Hi).
    assert (E : ellipsis_0_shape (shape Sobs) = Returned [n; m]).
    { apply ellipsis_0_shape_spec. exists N. exact HS. }
    rewrite E. cbn [mbind Outcome_bind]. unfold tril_from.
    assert (HL : exists L,
               (if length Lv =? tril_count n m
                then Returned (mk_ndarray [n; m] (scatter (tril_mask n m) Lv))
                else match Lv with
                     | [v] => Returned (mk_ndarray [n; m]
                                (scatter (tril_mask n m)
                                         (repeat v (tril_count n m))))
                     | _ => Raised (ValueError assign_msg)
                     end) = Returned L).
    { destruct (length Lv =? tril_count n m) eqn:Heq; [eauto |].
      destruct Hlen as [Hlen | Hlen].
      - rewrite Hlen, Nat.eqb_refl in Heq. discriminate.
      - destruct Lv as [| v [| ? ?]]; try discriminate. eauto. }
    destruct HL as [L ->]. cbn [mbind Outcome_bind].
    unfold py_index. destruct (lookup_lt_is_Some_2 Lv i Hi) as [x ->].
    cbn. eauto.
Qed.
End PosteriorFacts.

(** ** sample_L2: every outcome, the draws, and a sweep that raises *)

Section SweepFacts.
Context {R G : Type} `{Scalar R} `{RandomState R G} `{Collaborators R}.

Lemma bind_get {St B} (f : St -> @M R G St B) w :
  (get_store ≫= f) w = f (fst w) w.
Proof. reflexivity. Qed.

Lemma bind_lift_Returned {St A B} (a : A) (f : A -> @M R G St B) w :
  (lift (Returned a) ≫= f) w = f a w.
Proof. reflexivity. Qed.

Lemma bind_lift_Raised {St A B} e (f : A -> @M R G St B) w :
  (lift (Raised e) ≫= f) w = (Raised e, w).
Proof. reflexivity. Qed.

Lemma bind_modify {St B} (g : St -> St) (f : unit -> @M R G St B) w :
  (modify_store g ≫= f) w = f tt (g (fst w), snd w).
Proof. reflexivity. Qed.

(** One step returns the proposal or the old value, after a normal draw
    centred at the old value and a uniform draw. *)
Lemma sample_ell_comp_Returned_inv Ltaug i sigma2Lprop Sobs umat var_err
      mu_prior var_prior uut rng x rng' :
  _sample_ell_comp Ltaug i sigma2Lprop Sobs umat var_err mu_prior var_prior
                   uut (tt, rng) = (Returned x, (tt, rng')) ->
  exists Ltau,
    Ltaug !! i = Some Ltau
    /\ draws rng'
       = draws rng ++ [DrawNormal Ltau (fsqrt sigma2Lprop); DrawUniform].
Proof.
  unfold _sample_ell_comp, py_index.
  destruct (Ltaug !! i) as [Ltau |]; [| discriminate].
  unfold mbind, M_bind, lift, random_normal, random_uniform.
  cbn [fst snd gen draws].
  destruct (rs_normal Ltau (fsqrt sigma2Lprop) (gen rng)) as [Last g1].
  destruct (logp_ell_posterior (<[i:=Last]> Ltaug) _ _ _ _ _ _ _);
    [| discriminate].
  destruct (logp_ell_posterior Ltaug _ _ _ _ _ _ _); [| discriminate].
  cbn [fst snd gen draws]. destruct (rs_uniform g1) as [u g2].
  cbn [mret M_ret]. intros [= _ <-]. exists Ltau.
  split; [reflexivity |]. cbn. now rewrite <- app_assoc.
Qed.

Lemma sample_ell_comp_unit Ltaug i sigma2Lprop Sobs umat var_err
      mu_prior var_prior uut (w : unit * Rng R G) :
  fst (snd (_sample_ell_comp Ltaug i sigma2Lprop Sobs umat var_err mu_prior
                             var_prior uut w)) = tt.
Proof. now destruct (fst (snd _)). Qed.

(** The loop of [sample_L2] and the sweep of the specification have the
    same outcome and leave the same generator, for every input. *)
Lemma sample_L2_loop_outcome var_proposal Sobs umat var_err mu_prior var_prior
      uut todo :
  forall done zs rng,
    length zs = length todo ->
    let r1 := sample_L2_loop (seq (length done) (length todo)) (done ++ zs)
                var_proposal Sobs umat var_err mu_prior var_prior uut
                (done ++ todo, rng) in
    let r2 := sweep_spec done todo var_proposal Sobs umat var_err mu_prior
                         var_prior uut (tt, rng) in
    fst r1 = fst r2 /\ snd (snd r1) = snd (snd r2).
Proof.
  induction todo as [| old rest IH]; intros done zs rng Hlen.
  - destruct zs; [| discriminate]. cbn. now rewrite app_nil_r.
  - destruct zs as [| z zs]; [discriminate |]. injection Hlen as Hlen.
    cbn [length seq sample_L2_loop sweep_spec]. cbv zeta.
    rewrite bind_get. cbn [fst].
    destruct (py_index var_proposal (length done)) as [vp | e];
      [rewrite !bind_lift_Returned | now rewrite !bind_lift_Raised].
    destruct (py_index mu_prior (length done)) as [mp | e];
      [rewrite !bind_lift_Returned | now rewrite !bind_lift_Raised].
    destruct (py_index var_prior (length done)) as [vpr | e];
      [rewrite !bind_lift_Returned | now rewrite !bind_lift_Raised].
    destruct (_sample_ell_comp (done ++ old :: rest) (length done) vp Sobs
                umat var_err mp vpr uut (tt, rng))
      as [[x | e] [[] rng1]] eqn:Ex.
    2:{ rewrite (bind_Raised _ _ _ _ _ (frame_eq _ _ _ _ _ Ex)).
        rewrite (bind_Raised _ _ _ _ _ Ex). now split. }
    rewrite (bind_Returned _ _ _ _ _ (frame_eq _ _ _ _ _ Ex)).
    rewrite (bind_Returned _ _ _ _ _ Ex).
    rewrite insert_app_r_alt by lia. rewrite Nat.sub_diag.
    cbn [insert list_insert].
    rewrite py_index_middle, bind_lift_Returned, bind_modify. cbn [fst snd].
    rewrite insert_app_r_alt by lia. rewrite Nat.sub_diag.
    cbn [insert list_insert].
    specialize (IH (done ++ [x]) zs rng1 Hlen). cbv zeta in IH.
    rewrite length_app in IH. cbn [length] in IH.
    rewrite Nat.add_1_r in IH. rewrite <- !app_assoc in IH. exact IH.
Qed.

(** X17: for every input, also one on which the sweep fails, [sample_L2] has
    the outcome of the sequential sweep (the same vector, or the same
    exception) and leaves the generator in the same state. *)
Theorem sample_L2_outcome
    var_proposal Sobs umat var_err mu_prior var_prior uut Ltau rng :
  fst (sample_L2 var_proposal Sobs umat var_err mu_prior var_prior uut
                 (Ltau, rng))
  = fst (sweep_spec [] Ltau var_proposal Sobs umat var_err mu_prior var_prior
                    uut (tt, rng))
  /\ snd (snd (sample_L2 var_proposal Sobs umat var_err mu_prior var_prior uut
                         (Ltau, rng)))
     = snd (snd (sweep_spec [] Ltau var_proposal Sobs umat var_err mu_prior
                            var_prior uut (tt, rng))).
Proof.
  unfold sample_L2. unfold mbind, M_bind, get_store. cbn [fst snd].
  apply (sample_L2_loop_outcome var_proposal Sobs umat var_err mu_prior
           var_prior uut Ltau [] (repeat f_zero (length Ltau)) rng).
  apply repeat_length.
Qed.

(** The draws of a sweep that returns. *)
Lemma sweep_spec_draws var_proposal Sobs umat var_err mu_prior var_prior
      uut todo :
  forall done rng r rng',
    sweep_spec done todo var_proposal Sobs umat var_err mu_prior var_prior
               uut (tt, rng) = (Returned r, (tt, rng')) ->
    draws rng'
    = draws rng
      ++ flat_map (fun xv => [DrawNormal (fst xv) (fsqrt (snd xv));
                              DrawUniform])
                  (combine todo (drop (length done) var_proposal)).
Proof.
  induction todo as [| old rest IH]; intros done rng r rng' E.
  - cbn in E. injection E as _ <-. cbn. now rewrite app_nil_r.
  - cbn [sweep_spec] in E.
    apply bind_inv_Returned in E as (vp & w1 & E1 & E).
    apply bind_inv_Returned in E as (mp & w2 & E2 & E).
    apply bind_inv_Returned in E as (vpr & w3 & E3 & E).
    apply bind_inv_Returned in E as (x & [[] rng1] & E4 & E).
    unfold lift in E1, E2, E3.
    injection E1 as E1 <-. injection E2 as E2 <-. injection E3 as E3 <-.
    apply sample_ell_comp_Returned_inv in E4 as (Ltau & HLtau & Hd).
    rewrite list_lookup_middle in HLtau by reflexivity.
    injection HLtau as <-.
    apply IH in E. rewrite E, Hd, <- app_assoc.
    rewrite length_app. cbn [length]. rewrite Nat.add_1_r.
    unfold py_index in E1.
    destruct (var_proposal !! length done) as [vp' |] eqn:Hvp;
      [| discriminate].
    injection E1 as ->.
    rewrite (drop_S _ _ _ Hvp). reflexivity.
Qed.

(** X18: a call of [sample_L2] that returns has made two draws for each
    element, in index order: a normal one centred at the value the element
    had in the input vector, with the square root of the element's proposal
    variance as scale, and a uniform one. *)
Theorem sample_L2_draws
    var_proposal Sobs umat var_err mu_prior var_prior uut Ltau rng r st rng' :
  sample_L2 var_proposal Sobs umat var_err mu_prior var_prior uut (Ltau, rng)
  = (Returned r, (st, rng')) ->
  draws rng'
  = draws rng
    ++ flat_map (fun xv => [DrawNormal (fst xv) (fsqrt (snd xv)); DrawUniform])
                (combine Ltau var_proposal).
Proof.
  intros E.
  pose proof (sample_L2_loop_outcome var_proposal Sobs umat var_err mu_prior
                var_prior uut Ltau [] (repeat f_zero (length Ltau)) rng
                (repeat_length _ _)) as [Ho Hr].
  unfold sample_L2 in E. rewrite bind_get in E. cbn [fst app length] in *.
  rewrite E in Ho, Hr. cbn [fst snd] in Ho, Hr.
  destruct (sweep_spec [] Ltau var_proposal Sobs umat var_err mu_prior
                       var_prior uut (tt, rng)) as [o [[] rng2]] eqn:Es.
  cbn [fst snd] in Ho, Hr. subst o rng2.
  apply sweep_spec_draws in Es. exact Es.
Qed.



(** X20: for an observed tensor of shape (p, p, N) with N >= 1, a vector
    [Ltau] of p(p+1)/2 free elements and per-element parameters for each of
    them, [sample_L2] returns a vector of that length, which is also what
    the caller's array holds afterwards. *)
Theorem sample_L2_square
    var_proposal Sobs umat var_err mu_prior var_prior uut Ltau rng p N :
  shape Sobs = [p; p; S N] ->
  2 * length Ltau = p * (p + 1) ->
  length Ltau <= length var_proposal ->
  length Ltau <= length mu_prior ->
  length Ltau <= length var_prior ->
  exists r rng',
    sample_L2 var_proposal Sobs umat var_err mu_prior var_prior uut
              (Ltau, rng)
    = (Returned r, (r, rng'))
    /\ length r = length Ltau.
Proof.
  intros HS Hlen Hvp Hmp Hvpr.
  assert (HS' : ellipsis_0_shape (shape Sobs) = Returned [p; p]).
  { apply ellipsis_0_shape_spec. exists N. exact HS. }
  assert (Htri : length Ltau = tril_count p p).
  { pose proof (tril_count_le p p (le_n p)). lia. }
  destruct (sweep_spec_Returned var_proposal Sobs umat var_err mu_prior
              var_prior uut p p Ltau HS' [] rng) as (r & rng' & Er & Hr);
    cbn [length]; try lia.
  exists r, rng'. split; [| exact Hr].
  unfold sample_L2. unfold mbind, M_bind, get_store. cbn [fst snd].
  apply (sample_L2_loop_sweep var_proposal Sobs umat var_err mu_prior
           var_prior uut Ltau [] (repeat f_zero (length Ltau)) rng r rng').
  - apply repeat_length.
  - exact Er.
Qed.
End SweepFacts.

Module CholeskyMoreExamples.
Import Rational Example.

Ltac run := vm_compute; reflexivity.

Lemma elliptical_slice_sample_draws_witness :
  exists k,
    draws (snd (snd (elliptical_slice prior_112 (Some 1000%Q) 1%Q 0%Q 2%Z
                       (world bundle_112 [1 # 2; 1 # 2; 1 # 4; 1 # 8]%Q))))
    = [] ++ repeat DrawUniform k
    /\ 2 <= k <= 3 + Z.to_nat 2.
Proof.
  apply (elliptical_slice_sample_draws prior_112 (Some 1000%Q) 1%Q 0%Q 2%Z
           bundle_112 (mk_Rng [1 # 2; 1 # 2; 1 # 4; 1 # 8]%Q []) 1 1 2).
  - reflexivity.
  - reflexivity.
Defined.

Lemma tril_from_lower_witness :
  shape (arr [2; 2] [1; 0; 2; 3]%Q) = [2; 2]
  /\ length (data (arr [2; 2] [1; 0; 2; 3]%Q)) = 2 * 2
  /\ (0 < 2 -> 1 < 2 -> 0 < 1 ->
      entry 2 (data (arr [2; 2] [1; 0; 2; 3]%Q)) 0 1 = Some f_zero).
Proof.
  apply (tril_from_lower 2 2 [1; 2; 3]%Q (arr [2; 2] [1; 0; 2; 3]%Q) 0 1).
  run.
Defined.

Lemma tril_from_gather_witness :
  gather (tril_mask 3 3)
         (data (arr [3; 3] [1; 0; 0; 2; 3; 0; 4; 5; 6]%Q))
  = [1; 2; 3; 4; 5; 6]%Q.
Proof.
  apply (tril_from_gather 3 3 [1; 2; 3; 4; 5; 6]%Q
           (arr [3; 3] [1; 0; 0; 2; 3; 0; 4; 5; 6]%Q)).
  - reflexivity.
  - run.
Defined.

Lemma logp_ell_posterior_Returned_iff_witness :
  exists x,
    logp_ell_posterior [1; 0; 0]%Q 1 (arr [2; 2; 1] [1; 0; 0; 1]%Q)
                       (arr [1; 2; 1] [1; 1]%Q) 1%Q 0%Q 1%Q None
    = Returned x.
Proof.
  apply (proj2 (logp_ell_posterior_Returned_iff [1; 0; 0]%Q 1
                  (arr [2; 2; 1] [1; 0; 0; 1]%Q) (arr [1; 2; 1] [1; 1]%Q)
                  1%Q 0%Q 1%Q None)).
  exists 2, 2, 0. split; [reflexivity |].
  split; [left; reflexivity | cbn; lia].
Defined.

Lemma sample_L2_draws_witness :
  [DrawNormal 1%Q 1%Q; DrawUniform; DrawNormal 0%Q 1%Q; DrawUniform;
   DrawNormal 0%Q 1%Q; DrawUniform]
  = [] ++ flat_map (fun xv => [DrawNormal (fst xv) (fsqrt (snd xv));
                               DrawUniform])
                   (combine [1; 0; 0]%Q [1; 1; 1]%Q).
Proof.
  apply (sample_L2_draws [1; 1; 1]%Q (arr [2; 2; 1] [1; 0; 0; 1]%Q)
           (arr [1; 2; 1] [1; 1]%Q) 1%Q [0; 0; 0]%Q [1; 1; 1]%Q None
           [1; 0; 0]%Q (mk_Rng [-1; 1 # 2; 1 # 2; 1 # 2; 0; 1 # 2]%Q [])
           [0; 1 # 2; 0]%Q [0; 1 # 2; 0]%Q
           (mk_Rng [] [DrawNormal 1%Q 1%Q; DrawUniform; DrawNormal 0%Q 1%Q;
                       DrawUniform; DrawNormal 0%Q 1%Q; DrawUniform])).
  run.
Defined.


(** The array after that call: the first element has its new value 0. *)
Example sample_L2_short_var_proposal_store :
  sample_L2 [1%Q] (arr [2; 2; 1] [1; 0; 0; 1]%Q) (arr [1; 2; 1] [1; 1]%Q)
            1%Q [0; 0; 0]%Q [1; 1; 1]%Q None
            (world [1; 0; 0]%Q [-1; 1 # 2; 1 # 2; 1 # 2]%Q)
  = (Raised (IndexError index_msg),
     ([0; 0; 0]%Q,
      mk_Rng [1 # 2; 1 # 2]%Q [DrawNormal 1%Q 1%Q; DrawUniform])).
Proof. run. Qed.

Lemma sample_L2_square_witness :
  exists r rng',
    sample_L2 [1; 1; 1]%Q (arr [2; 2; 1] [1; 0; 0; 1]%Q)
              (arr [1; 2; 1] [1; 1]%Q) 1%Q [0; 0; 0]%Q [1; 1; 1]%Q None
              (world [1; 0; 0]%Q [-1; 1 # 2; 1 # 2; 1 # 2; 0; 1 # 2]%Q)
    = (Returned r, (r, rng'))
    /\ length r = length [1; 0; 0]%Q.
Proof.
  apply (sample_L2_square [1; 1; 1]%Q (arr [2; 2; 1] [1; 0; 0; 1]%Q)
           (arr [1; 2; 1] [1; 1]%Q) 1%Q [0; 0; 0]%Q [1; 1; 1]%Q None
           [1; 0; 0]%Q (mk_Rng [-1; 1 # 2; 1 # 2; 1 # 2; 0; 1 # 2]%Q [])
           2 0).
  - reflexivity.
  - reflexivity.
  - cbn. lia.
  - cbn. lia.
  - cbn. lia.
Defined.
End CholeskyMoreExamples.

(** ** _sample_ell_comp over the real numbers: uphill proposals *)

Section Uphill.
Import Real.
Context {G : Type} `{RandomState R G} `{Collaborators R}.

(** X21: over the real numbers and for a positive proposal variance, a
    proposal whose posterior is at least the posterior of the current value
    is accepted whenever the uniform variate is below 1: the step returns
    the proposal. *)
Theorem sample_ell_comp_uphill
    Ltaug i sigma2Lprop Sobs umat var_err mu_prior var_prior uut rng
    Ltau Last g1 logpLast logpLtau u g2 :
  (0 < sigma2Lprop)%R ->
  Ltaug !! i = Some Ltau ->
  rs_normal Ltau (fsqrt sigma2Lprop) (gen rng) = (Last, g1) ->
  logp_ell_posterior (<[i:=Last]> Ltaug) i Sobs umat var_err mu_prior
                     var_prior uut = Returned logpLast ->
  logp_ell_posterior Ltaug i Sobs umat var_err mu_prior var_prior uut
  = Returned logpLtau ->
  (logpLtau <= logpLast)%R ->
  rs_uniform g1 = (u, g2) ->
  (u < 1)%R ->
  _sample_ell_comp Ltaug i sigma2Lprop Sobs umat var_err mu_prior var_prior
                   uut (tt, rng)
  = (Returned Last,
     (tt, mk_Rng g2 (draws rng ++ [DrawNormal Ltau (fsqrt sigma2Lprop);
                                   DrawUniform]))).
Proof.
  intros Hvar Hi Hn Ha Hb Hle Hu Hu1.
  unfold _sample_ell_comp, py_index. rewrite Hi.
  unfold mbind, M_bind, lift, random_normal, random_uniform.
  cbn [fst snd gen draws]. rewrite Hn, Ha, Hb. cbn [fst snd gen draws].
  rewrite Hu. cbn [mret M_ret]. rewrite <- app_assoc. cbn [app].
  assert (Hs : (0 < fsqrt sigma2Lprop)%R) by (cbn; now apply sqrt_lt_R0).
  unfold ell_acceptance. rewrite (norm_pdf_ratio Ltau Last _ Hs).
  rewrite f_one_real.
  assert (HA : py_min 1%R (fmul (fexp (fsub logpLast logpLtau)) 1%R) = 1%R).
  { unfold py_min. cbn.
    destruct (Rlt_dec (exp (logpLast - logpLtau) * 1) 1) as [Hlt | _];
      [| reflexivity].
    exfalso.
    assert (1 <= exp (logpLast - logpLtau))%R.
    { rewrite <- exp_0.
      destruct (Req_dec (logpLast - logpLtau) 0) as [-> | Hne].
      - lra.
      - left. apply exp_increasing. lra. }
    lra. }
  rewrite HA. cbn.
  destruct (Rlt_dec u 1) as [_ | Hn1]; [reflexivity | contradiction].
Qed.
End Uphill.

Module UphillExample.
Import Real RealExample RealHalf.

Lemma sample_ell_comp_uphill_witness :
  _sample_ell_comp [1%R] 0 4%R (mk_ndarray [1; 1; 1] [1%R]) flat 1%R
                   (1 + sqrt 4 / 2)%R 1%R None (tt, mk_Rng tt [])
  = (Returned (1 + sqrt 4 / 2)%R,
     (tt, mk_Rng tt ([] ++ [DrawNormal 1%R (fsqrt 4%R); DrawUniform]))).
Proof.
  eapply (sample_ell_comp_uphill [1%R] 0 4%R (mk_ndarray [1; 1; 1] [1%R])
            flat 1%R (1 + sqrt 4 / 2)%R 1%R None (mk_Rng tt [])
            1%R (1 + sqrt 4 / 2)%R tt _ _ (1 / 2)%R tt).
  - lra.
  - reflexivity.
  - reflexivity.
  - reflexivity.
  - reflexivity.
  - cbn.
    pose proof (Rle_0_sqr (sqrt 4 / 2)) as Hsq. unfold Rsqr in Hsq.
    set (s := (sqrt 4 / 2)%R) in *. nra.
  - reflexivity.
  - lra.
Defined.
End UphillExample.
